(** * Substring search: KMP, Boyer-Moore (bad-character rule) and Rabin-Karp

    A shallow embedding of [task_3.py]: the three matchers with their
    precomputation (prefix table, shift table, polynomial hash), over
    Python's integers, strings, lists and dicts, and the properties of the
    specification that concern them; then the chained hash table of
    [task_1.py] and its laws. *)

From stdpp Require Import gmap list strings.
From Stdlib Require Import ZArith Lia.

Local Open Scope Z_scope.

(** ** Python values and failures *)

(** The exceptions the modelled code can raise. *)
Inductive py_error : Type :=
  | IndexError
  | ValueError
  | ZeroDivisionError.

(** The result of running a piece of the program: it returns a value,
    raises, or (a loop run with too little fuel) is cut off. *)
Inductive exec (A : Type) : Type :=
  | Done (a : A)
  | Raise (e : py_error)
  | OutOfFuel.

Arguments Done {A} a.
Arguments Raise {A} e.
Arguments OutOfFuel {A}.

#[global] Instance exec_ret : MRet exec := fun A a => Done a.
#[global] Instance exec_bind : MBind exec := fun A B k m =>
  match m with
  | Done a => k a
  | Raise e => Raise e
  | OutOfFuel => OutOfFuel
  end.

(** A string is its sequence of code points; [ord] is then the identity. *)
Abbreviation char := Z (only parsing).
Abbreviation str := (list Z) (only parsing).
Definition ord (c : char) : Z := c.

Definition len {A : Type} (l : list A) : Z := Z.of_nat (length l).

(** [s[k]]: a negative index counts from the end, anything outside
    [-len, len) raises IndexError. *)
Definition py_get {A : Type} (l : list A) (k : Z) : exec A :=
  let k' := if k <? 0 then k + len l else k in
  if (0 <=? k') && (k' <? len l) then
    match l !! Z.to_nat k' with
    | Some x => Done x
    | None => Raise IndexError
    end
  else Raise IndexError.

(** [l[k] = v] on a list: same index rule as [py_get]. *)
Definition py_set {A : Type} (l : list A) (k : Z) (v : A) : exec (list A) :=
  let k' := if k <? 0 then k + len l else k in
  if (0 <=? k') && (k' <? len l) then Done (<[Z.to_nat k' := v]> l)
  else Raise IndexError.

(** Slice bounds: a negative bound counts from the end, then the bound is
    clamped to [0, len]. *)
Definition clamp_index (n k : Z) : Z :=
  let k' := if k <? 0 then k + n else k in
  Z.max 0 (Z.min n k').

(** [s[lo:hi]]. *)
Definition py_slice {A : Type} (s : list A) (lo hi : Z) : list A :=
  let a := clamp_index (len s) lo in
  let b := clamp_index (len s) hi in
  take (Z.to_nat (b - a)) (drop (Z.to_nat a) s).

(** [a % m]: the sign of the result follows the divisor, as [Z.modulo]. *)
Definition py_mod (a m : Z) : exec Z :=
  if m =? 0 then Raise ZeroDivisionError else Done (a mod m).

(** The inverse of [b] modulo [m], searched in [0, |m|). *)
Definition mod_inverse (b m : Z) : option Z :=
  find (fun x => (b * x) mod m =? 1 mod m) (seqZ 0 (Z.abs m)).

(** Three-argument [pow(b, e, m)] (Python 3.8 and later): a negative
    exponent takes the power of the modular inverse and raises ValueError
    when [b] has none; a zero modulus raises ValueError. *)
Definition py_pow3 (b e m : Z) : exec Z :=
  if m =? 0 then Raise ValueError
  else if 0 <=? e then Done ((b ^ e) mod m)
  else match mod_inverse b m with
       | Some b' => Done ((b' ^ (- e)) mod m)
       | None => Raise ValueError
       end.

(** [[v] * n]. *)
Definition py_repeat {A : Type} (v : A) (n : Z) : list A := replicate (Z.to_nat n) v.

(** [enumerate(l)]. *)
Definition enumerate {A : Type} (l : list A) : list (Z * A) :=
  zip (seqZ 0 (len l)) l.

(** [d.get(k, v)] and [d.setdefault(k, v)] (the dict it leaves behind). *)
Definition dict_get (d : gmap char Z) (k : char) (v : Z) : Z :=
  default v (d !! k).

Definition dict_setdefault (d : gmap char Z) (k : char) (v : Z) : gmap char Z :=
  match d !! k with
  | Some _ => d
  | None => <[k := v]> d
  end.

(** ** Loops *)

(** [for x in l: body], threading the variables the body assigns. *)
Fixpoint for_each {A St : Type} (body : St -> A -> exec St) (l : list A) (s : St)
  : exec St :=
  match l with
  | [] => Done s
  | x :: l' => s' ← body s x; for_each body l' s'
  end.

Section While.
Context {St R : Type}.
(** The loop test, and the loop body: [inl s'] goes round again with the
    new state, [inr r] is a [return r] from inside the loop. *)
Variable cond : St -> exec bool.
Variable body : St -> exec (St + R).

(** [while fuel s]: [inl s'] when the test fails in state [s'] (the code
    after the loop runs next), [inr r] when the body returned. *)
Fixpoint while (fuel : nat) (s : St) : exec (St + R) :=
  match fuel with
  | O => OutOfFuel
  | S fuel' =>
      b ← cond s;
      if b : bool then
        x ← body s;
        match x with
        | inl s' => while fuel' s'
        | inr r => Done (inr r)
        end
      else Done (inl s)
  end.

(** How many times the body is entered. *)
Fixpoint iterations (fuel : nat) (s : St) : nat :=
  match fuel with
  | O => O
  | S fuel' =>
      match cond s with
      | Done true =>
          S match body s with
            | Done (inl s') => iterations fuel' s'
            | _ => O
            end
      | _ => O
      end
  end.

(** The states at the head of the loop that a run from [s0] goes through. *)
Inductive reaches (s0 : St) : St -> Prop :=
  | reaches_start : reaches s0 s0
  | reaches_next s s' :
      reaches s0 s -> cond s = Done true -> body s = Done (inl s') ->
      reaches s0 s'.
End While.

(** ** Knuth-Morris-Pratt *)

(** [compute_lps] (task_3.py, lines 44-70). The variables of its loop: *)
Record lps_state : Type := LpsState
  { st_lps : list Z; st_length : Z; st_i : Z }.

(** [while i < len(pattern)] and its body. *)
Definition compute_lps_cond (pattern : str) (s : lps_state) : exec bool :=
  Done (st_i s <? len pattern).

Definition compute_lps_body (pattern : str) (s : lps_state)
  : exec (lps_state + Empty_set) :=
  let '(LpsState lps length i) := s in
  pi ← py_get pattern i;
  pl ← py_get pattern length;
  if pi =? pl then
    let length := length + 1 in
    lps ← py_set lps i length;
    Done (inl (LpsState lps length (i + 1)))
  else if negb (length =? 0) then
    length ← py_get lps (length - 1);
    Done (inl (LpsState lps length i))
  else
    lps ← py_set lps i 0;
    Done (inl (LpsState lps length (i + 1))).

(** [lps = [0] * len(pattern); length = 0; i = 1]. *)
Definition compute_lps_init (pattern : str) : lps_state :=
  LpsState (py_repeat 0 (len pattern)) 0 1.

Definition compute_lps_fuel (fuel : nat) (pattern : str) : exec (list Z) :=
  r ← while (compute_lps_cond pattern) (compute_lps_body pattern) fuel
        (compute_lps_init pattern);
  match r with
  | inl s => Done (st_lps s)
  | inr e => match e : Empty_set with end
  end.

(** The loop test is evaluated at most [2 * len pattern + 1] times
    ([compute_lps_fuel_enough]). *)
Definition compute_lps (pattern : str) : exec (list Z) :=
  compute_lps_fuel (2 * length pattern + 1) pattern.

(** [kmp_search] (task_3.py, lines 72-98): the state of its loop is
    [(i, j)]; [while i < N] and its body. *)
Definition kmp_cond (main_string : str) (s : Z * Z) : exec bool :=
  Done (s.1 <? len main_string).

Definition kmp_body (main_string pattern : str) (lps : list Z) (s : Z * Z)
  : exec (Z * Z + Z) :=
  let '(i, j) := s in
  pj ← py_get pattern j;
  ti ← py_get main_string i;
  if pj =? ti then
    let i := i + 1 in
    let j := j + 1 in
    if j =? len pattern then Done (inr (i - j)) else Done (inl (i, j))
  else if negb (j =? 0) then
    j ← py_get lps (j - 1);
    Done (inl (i, j))
  else Done (inl (i + 1, j)).

Definition kmp_search_fuel (fuel : nat) (main_string pattern : str) : exec Z :=
  lps ← compute_lps pattern;
  r ← while (kmp_cond main_string) (kmp_body main_string pattern lps) fuel (0, 0);
  match r with
  | inl _ => Done (-1)
  | inr r => Done r
  end.

(** The loop test is evaluated at most [2 * len main_string + 1] times
    ([kmp_search_fuel_enough]). *)
Definition kmp_search (main_string pattern : str) : exec Z :=
  kmp_search_fuel (2 * length main_string + 1) main_string pattern.

(** How often the scan loop of [kmp_search] is entered. *)
Definition kmp_iterations (main_string pattern : str) : nat :=
  match compute_lps pattern with
  | Done lps =>
      iterations (kmp_cond main_string) (kmp_body main_string pattern lps)
        (2 * length main_string + 1) (0, 0)
  | _ => O
  end.

(** ** Boyer-Moore, bad-character rule *)

(** [build_shift_table] (task_3.py, lines 101-116). *)
Definition build_shift_table (pattern : str) : exec (gmap char Z) :=
  let table : gmap char Z := ∅ in
  let length := len pattern in
  table ← for_each (fun table '(i, c) => Done (<[c := length - i - 1]> table))
            (enumerate (py_slice pattern 0 (-1))) table;
  last ← py_get pattern (-1);
  Done (dict_setdefault table last length).

(** The inner loop: [while j >= 0 and text[i + j] == pattern[j]: j -= 1]. *)
Definition bm_compare_cond (text pattern : str) (i j : Z) : exec bool :=
  if 0 <=? j then
    t ← py_get text (i + j);
    p ← py_get pattern j;
    Done (t =? p)
  else Done false.

Definition bm_compare_body (j : Z) : exec (Z + Empty_set) := Done (inl (j - 1)).

(** [boyer_moore_search] (task_3.py, lines 119-143): the state of the
    outer loop is the window start [i]; [while i <= text_length -
    pattern_length] and its body. *)
Definition bm_cond (text pattern : str) (i : Z) : exec bool :=
  Done (i <=? len text - len pattern).

Definition bm_body (text pattern : str) (shift_table : gmap char Z) (i : Z)
  : exec (Z + Z) :=
  let pattern_length := len pattern in
  r ← while (bm_compare_cond text pattern i) bm_compare_body
        (length pattern + 1) (pattern_length - 1);
  match r with
  | inl j =>
      if j <? 0 then Done (inr i)
      else
        c ← py_get text (i + pattern_length - 1);
        Done (inl (i + dict_get shift_table c pattern_length))
  | inr e => match e : Empty_set with end
  end.

Definition boyer_moore_search_fuel (fuel : nat) (text pattern : str) : exec Z :=
  shift_table ← build_shift_table pattern;
  r ← while (bm_cond text pattern) (bm_body text pattern shift_table) fuel 0;
  match r with
  | inl _ => Done (-1)
  | inr r => Done r
  end.

(** The window start grows by at least one each round, so the outer test
    is evaluated at most [len text + 1] times
    ([boyer_moore_search_fuel_enough]). *)
Definition boyer_moore_search (text pattern : str) : exec Z :=
  boyer_moore_search_fuel (length text + 1) text pattern.

(** How often the outer loop of [boyer_moore_search] is entered. *)
Definition bm_iterations (text pattern : str) : nat :=
  match build_shift_table pattern with
  | Done shift_table =>
      iterations (bm_cond text pattern) (bm_body text pattern shift_table)
        (length text + 1) 0
  | _ => O
  end.

(** ** Rabin-Karp *)

(** [polynomial_hash] (task_3.py, lines 146-163); the exponent
    [n - i - 1] of the two-argument [pow] is never negative. *)
Definition polynomial_hash (s : str) (base modulus : Z) : exec Z :=
  let n := len s in
  for_each
    (fun hash_value '(i, c) =>
       power_of_base ← py_mod (base ^ (n - i - 1)) modulus;
       py_mod (hash_value + ord c * power_of_base) modulus)
    (enumerate s) 0.

(** [rabin_karp_search] (task_3.py, lines 166-197). The loop
    [for i in range(main_string_length - substring_length + 1)] is run as
    a while loop on the index and [current_slice_hash]. *)
Definition rk_cond (main_string substring : str) (s : Z * Z) : exec bool :=
  Done (s.1 <? len main_string - len substring + 1).

Definition rk_body (main_string substring : str)
    (base modulus substring_hash h_multiplier : Z) (s : Z * Z) : exec (Z * Z + Z) :=
  let '(i, current_slice_hash) := s in
  let substring_length := len substring in
  let main_string_length := len main_string in
  if (substring_hash =? current_slice_hash)
     && bool_decide (py_slice main_string i (i + substring_length) = substring)
  then Done (inr i)
  else if i <? main_string_length - substring_length then
    c ← py_get main_string i;
    current_slice_hash ← py_mod (current_slice_hash - ord c * h_multiplier) modulus;
    c' ← py_get main_string (i + substring_length);
    current_slice_hash ← py_mod (current_slice_hash * base + ord c') modulus;
    Done (inl (i + 1, current_slice_hash))
  else Done (inl (i + 1, current_slice_hash)).

(** [base = 256] and [modulus = 101]. *)
Definition rk_base : Z := 256.
Definition rk_modulus : Z := 101.

(** The range has [main_string_length - substring_length + 1] indices
    (none when that is negative); one more test ends the loop. *)
Definition rabin_karp_search (main_string substring : str) : exec Z :=
  let substring_length := len substring in
  let main_string_length := len main_string in
  let base := rk_base in
  let modulus := rk_modulus in
  substring_hash ← polynomial_hash substring base modulus;
  current_slice_hash ←
    polynomial_hash (py_slice main_string 0 substring_length) base modulus;
  h_multiplier ← py_pow3 base (substring_length - 1) modulus;
  r ← while (rk_cond main_string substring)
        (rk_body main_string substring base modulus substring_hash h_multiplier)
        (Z.to_nat (main_string_length - substring_length + 1) + 1)
        (0, current_slice_hash);
  match r with
  | inl _ => Done (-1)
  | inr r => Done r
  end.

(** How often the loop of [rabin_karp_search] is entered. *)
Definition rk_iterations (main_string substring : str) : nat :=
  let substring_length := len substring in
  let main_string_length := len main_string in
  match polynomial_hash substring rk_base rk_modulus,
        polynomial_hash (py_slice main_string 0 substring_length) rk_base rk_modulus,
        py_pow3 rk_base (substring_length - 1) rk_modulus with
  | Done substring_hash, Done current_slice_hash, Done h_multiplier =>
      iterations (rk_cond main_string substring)
        (rk_body main_string substring rk_base rk_modulus substring_hash h_multiplier)
        (Z.to_nat (main_string_length - substring_length + 1) + 1)
        (0, current_slice_hash)
  | _, _, _ => O
  end.

(** The states at the head of the loop of [rabin_karp_search]: the index
    and [current_slice_hash], from the values computed before the loop. *)
Definition rk_loop_state (main_string substring : str) (st : Z * Z) : Prop :=
  exists substring_hash current_slice_hash h_multiplier,
    polynomial_hash substring rk_base rk_modulus = Done substring_hash /\
    polynomial_hash (py_slice main_string 0 (len substring)) rk_base rk_modulus
      = Done current_slice_hash /\
    py_pow3 rk_base (len substring - 1) rk_modulus = Done h_multiplier /\
    reaches (rk_cond main_string substring)
      (rk_body main_string substring rk_base rk_modulus substring_hash h_multiplier)
      (0, current_slice_hash) st.

(** String literals for the examples: the code points of an ASCII string. *)
Definition str_of (x : string) : str :=
  (fun a => Z.of_N (Ascii.N_of_ascii a)) <$> String.list_ascii_of_string x.

(** ** The hash table ([task_1.py]) *)

Section HashTable.
Context {K V : Type} `{EqDecision K}.

(** Python's built-in [hash] on the keys. *)
Variable hash : K -> Z.

(** An object of class [HashTable]: [self.size] and [self.table], a list
    of buckets; a bucket is a list of pairs [[key, value]]. *)
Record hash_table : Type := HashTable
  { ht_size : Z; ht_table : list (list (K * V)) }.

(** [HashTable(size)] (lines 11-19): [[[] for _ in range(size)]]. *)
Definition ht_init (size : Z) : hash_table :=
  HashTable size ((fun _ => []) <$> seqZ 0 size).

(** [hash_function] (lines 21-31). *)
Definition hash_function (ht : hash_table) (key : K) : exec Z :=
  py_mod (hash key) (ht_size ht).

(** [for i, pair in enumerate(bucket): if pair[0] == key: ...]: the
    position and the value of the first pair that holds the key. *)
Fixpoint find_pair (bucket : list (K * V)) (key : K) : option (nat * V) :=
  match bucket with
  | [] => None
  | kv :: rest =>
      if decide (kv.1 = key) then Some (O, kv.2)
      else prod_map S id <$> find_pair rest key
  end.

(** [insert] (lines 33-55); the bucket is changed in place, the table
    keeps it at [key_hash]. Returns the object after the call and the
    value returned. *)
Definition ht_insert (ht : hash_table) (key : K) (value : V)
  : exec (hash_table * bool) :=
  key_hash ← hash_function ht key;
  let key_value := (key, value) in
  bucket ← py_get (ht_table ht) key_hash;
  match bucket with
  | [] =>
      table ← py_set (ht_table ht) key_hash [key_value];
      Done (HashTable (ht_size ht) table, true)
  | _ :: _ =>
      match find_pair bucket key with
      | Some (i, _) =>
          table ← py_set (ht_table ht) key_hash
                    (alter (fun kv => (kv.1, value)) i bucket);
          Done (HashTable (ht_size ht) table, true)
      | None =>
          table ← py_set (ht_table ht) key_hash (bucket ++ [key_value]);
          Done (HashTable (ht_size ht) table, true)
      end
  end.

(** [get] (lines 57-72); [None] is Python's [None]. *)
Definition ht_get (ht : hash_table) (key : K) : exec (option V) :=
  key_hash ← hash_function ht key;
  bucket ← py_get (ht_table ht) key_hash;
  match bucket with
  | [] => Done None
  | _ :: _ => Done (snd <$> find_pair bucket key)
  end.

(** [delete] (lines 74-90): [pop(i)] at the first pair with the key. *)
Definition ht_delete (ht : hash_table) (key : K) : exec (hash_table * bool) :=
  key_hash ← hash_function ht key;
  bucket ← py_get (ht_table ht) key_hash;
  match bucket with
  | [] => Done (ht, false)
  | _ :: _ =>
      match find_pair bucket key with
      | Some (i, _) =>
          table ← py_set (ht_table ht) key_hash (delete i bucket);
          Done (HashTable (ht_size ht) table, true)
      | None => Done (ht, false)
      end
  end.
End HashTable.

Arguments hash_table : clear implicits.
Arguments HashTable {K V} ht_size ht_table.

(** * Specifications *)

(** ** Indexing *)

(** [ith l k] is [l[k]] for an index in range (0 outside). *)
Definition ith (l : list Z) (k : Z) : Z := default 0 (l !! Z.to_nat k).

Notation "l .[ k ]" := (ith l k) (at level 1, format "l .[ k ]").

(** ** What a matcher has to return *)

(** [pattern] occurs in [text] at index [i]. *)
Definition occurs_at (text pattern : str) (i : Z) : Prop :=
  0 <= i /\ i + len pattern <= len text /\
  py_slice text i (i + len pattern) = pattern.

(** [r] is the index of the first occurrence, or -1 when there is none. *)
Definition search_result (text pattern : str) (r : Z) : Prop :=
  (occurs_at text pattern r /\ forall i, occurs_at text pattern i -> r <= i) \/
  (r = -1 /\ forall i, ~ occurs_at text pattern i).

(** ** Borders and the prefix table *)

(** [pborder p k n]: the first [k] symbols of [p] are also the last [k]
    symbols of [p[0..n)]. *)
Definition pborder (p : str) (k n : Z) : Prop :=
  0 <= k <= n /\ forall t, 0 <= t < k -> p.[t] = p.[n - k + t].

(** [v] is the greatest [k < n] with [pborder p k n]. *)
Definition is_pi (p : str) (n v : Z) : Prop :=
  v < n /\ pborder p v n /\ forall k, k < n -> pborder p k n -> k <= v.

(** [u] is a proper prefix of [w] that is also a suffix of [w]. *)
Definition proper_prefix_suffix (u w : str) : Prop :=
  u `prefix_of` w /\ u `suffix_of` w /\ u <> w.

(** [v] is the length of the longest proper prefix of [w] that is also a
    suffix of [w]. *)
Definition longest_prefix_suffix (w : str) (v : Z) : Prop :=
  (exists u, proper_prefix_suffix u w /\ len u = v) /\
  forall u, proper_prefix_suffix u w -> len u <= v.

(** ** The shift table *)

(** [i] is the last index below [n] at which [p] holds the symbol [c]. *)
Definition last_index_before (p : str) (n : Z) (c : char) (i : Z) : Prop :=
  0 <= i < n /\ p.[i] = c /\ forall k, i < k < n -> p.[k] <> c.

(** What the table holds after the loop over [enumerate(l)]. *)
Definition shift_entries (l : list Z) (length : Z) (table : gmap Z Z) : Prop :=
  forall c,
    match table !! c with
    | Some v => exists i, last_index_before l (len l) c i /\ v = length - i - 1
    | None => forall k, 0 <= k < len l -> l.[k] <> c
    end.

(** The table of a non-empty pattern of length [m]: a symbol that occurs
    before the final position is mapped to the distance from its last such
    occurrence to the end; the final symbol, if it does not, to [m]; no
    other symbol has an entry. *)
Definition shift_table_spec (pattern : str) (table : gmap Z Z) : Prop :=
  let m := len pattern in
  forall c,
    match table !! c with
    | Some v =>
        (exists i, last_index_before pattern (m - 1) c i /\ v = m - i - 1) \/
        ((forall k, 0 <= k < m - 1 -> pattern.[k] <> c) /\
         c = pattern.[m - 1] /\ v = m)
    | None => forall k, 0 <= k < m -> pattern.[k] <> c
    end.

(** ** The polynomial hash *)

(** The value the hash reduces: the string read as a number in the base. *)
Fixpoint poly (base : Z) (s : list Z) : Z :=
  match s with
  | [] => 0
  | c :: s' => c * base ^ len s' + poly base s'
  end.

(** ** Loop invariants and measures *)

(** The invariant of the loop of [compute_lps], for a pattern of length
    [M >= 1]: the table is filled below [i], [length] is a border of
    [pattern[0..i)], and no longer border of [pattern[0..i)] extends to one
    of [pattern[0..i]]. *)
Definition lps_inv (pattern : str) (s : lps_state) : Prop :=
  let '(LpsState lps length i) := s in
  len lps = len pattern /\
  1 <= i <= len pattern /\
  0 <= length < i /\
  pborder pattern length i /\
  (forall k, 0 <= k < i -> is_pi pattern (k + 1) lps.[k]) /\
  (i < len pattern ->
   forall k, 0 <= k < i -> pborder pattern (k + 1) (i + 1) -> k <= length).

Definition lps_measure (pattern : str) (s : lps_state) : Z :=
  2 * (len pattern - st_i s) + st_length s.

Definition kmp_inv (text pattern : str) (s : Z * Z) : Prop :=
  let '(i, j) := s in
  0 <= j <= i /\ i <= len text /\ j < len pattern /\
  (forall t, 0 <= t < j -> pattern.[t] = text.[i - j + t]) /\
  (forall k, occurs_at text pattern k -> i - j <= k).

Definition kmp_measure (text : str) (s : Z * Z) : Z :=
  2 * (len text - s.1) + s.2.

(** The invariant of the outer loop of [boyer_moore_search]: no occurrence
    starts before the window. *)
Definition bm_inv (text pattern : str) (i : Z) : Prop :=
  0 <= i <= len text /\ forall k, occurs_at text pattern k -> i <= k.

Definition bm_measure (text : str) (i : Z) : Z := len text - i.

(** The invariant of the loop of [rabin_karp_search]: at a window
    position, [current_slice_hash] is the hash of the window; no occurrence
    starts before [i]. *)
Definition rk_inv (text pattern : str) (s : Z * Z) : Prop :=
  let '(i, h) := s in
  0 <= i /\
  (i + len pattern <= len text ->
   h = poly rk_base (py_slice text i (i + len pattern)) mod rk_modulus) /\
  forall k, occurs_at text pattern k -> i <= k.

Definition rk_measure (text pattern : str) (s : Z * Z) : Z :=
  Z.max 0 (len text - len pattern + 1 - s.1).

(** ** The hash table *)

Section HashTableSpec.
Context {K V : Type} `{EqDecision K}.
Variable hash : K -> Z.

(** The table has as many buckets as its positive size says. *)
Definition ht_ok (ht : hash_table K V) : Prop :=
  0 < ht_size ht /\ len (ht_table ht) = ht_size ht.

(** Moreover no key is twice in a bucket, and every pair sits in the
    bucket of its key's hash. *)
Definition ht_inv (ht : hash_table K V) : Prop :=
  ht_ok ht /\
  forall (n : nat) bucket, ht_table ht !! n = Some bucket ->
    NoDup bucket.*1 /\
    forall kv, kv ∈ bucket -> hash kv.1 mod ht_size ht = Z.of_nat n.

(** The number of pairs the table holds. *)
Definition ht_count (ht : hash_table K V) : Z := len (concat (ht_table ht)).

(** The bucket [insert] leaves behind, and the one [delete] does. *)
Definition bucket_insert (bucket : list (K * V)) (key : K) (value : V)
  : list (K * V) :=
  match find_pair bucket key with
  | Some (i, _) => alter (fun kv => (kv.1, value)) i bucket
  | None => bucket ++ [(key, value)]
  end.

Definition bucket_delete (bucket : list (K * V)) (key : K) : list (K * V) :=
  match find_pair bucket key with
  | Some (i, _) => delete i bucket
  | None => bucket
  end.

(** The bucket a key hashes to. *)
Definition bucket_at (ht : hash_table K V) (key : K) : list (K * V) :=
  default [] (ht_table ht !! Z.to_nat (hash key mod ht_size ht)).
End HashTableSpec.

(** * Properties *)

#[global] Arguments py_get : simpl never.
#[global] Arguments py_set : simpl never.
#[global] Arguments py_slice : simpl never.
#[global] Arguments py_mod : simpl never.
#[global] Arguments py_pow3 : simpl never.
#[global] Arguments len : simpl never.

(** ** Lists indexed by integers *)

Lemma len_nonneg {A : Type} (l : list A) : 0 <= len l.
Proof. unfold len. lia. Qed.

Lemma len_nil {A : Type} : len (@nil A) = 0.
Proof. reflexivity. Qed.

Lemma len_zero_nil {A : Type} (l : list A) : len l = 0 -> l = [].
Proof. destruct l; [ done | unfold len; simpl; lia ]. Qed.

Lemma len_pos {A : Type} (l : list A) : l <> [] -> 0 < len l.
Proof. destruct l; [ done | unfold len; simpl; lia ]. Qed.

Lemma lookup_ith (l : list Z) (k : Z) :
  0 <= k < len l -> l !! Z.to_nat k = Some l.[k].
Proof.
  intros Hk. unfold ith.
  destruct (l !! Z.to_nat k) eqn:E; [ done | ].
  apply lookup_ge_None in E. unfold len in Hk. lia.
Qed.

Lemma py_get_Done (l : list Z) (k : Z) :
  0 <= k < len l -> py_get l k = Done l.[k].
Proof.
  intros Hk. unfold py_get.
  replace (k <? 0) with false by lia.
  replace ((0 <=? k) && (k <? len l)) with true
    by (symmetry; apply andb_true_iff; lia).
  by rewrite lookup_ith.
Qed.

Lemma py_get_Raise {A : Type} (l : list A) (k : Z) :
  k < - len l \/ len l <= k -> py_get l k = Raise IndexError.
Proof.
  intros Hk. unfold py_get. pose proof (len_nonneg l).
  destruct (k <? 0) eqn:E.
  - replace ((0 <=? k + len l) && (k + len l <? len l)) with false; [ done | ].
    symmetry. apply andb_false_iff. lia.
  - replace ((0 <=? k) && (k <? len l)) with false; [ done | ].
    symmetry. apply andb_false_iff. lia.
Qed.

Lemma py_set_Done {A : Type} (l : list A) (k : Z) (v : A) :
  0 <= k < len l -> py_set l k v = Done (<[Z.to_nat k := v]> l).
Proof.
  intros Hk. unfold py_set.
  replace (k <? 0) with false by lia.
  by replace ((0 <=? k) && (k <? len l)) with true
    by (symmetry; apply andb_true_iff; lia).
Qed.

Lemma len_insert {A : Type} (l : list A) (n : nat) (v : A) :
  len (<[n := v]> l) = len l.
Proof. unfold len. by rewrite length_insert. Qed.

Lemma ith_insert_eq (l : list Z) (k v : Z) :
  0 <= k < len l -> (<[Z.to_nat k := v]> l).[k] = v.
Proof.
  intros Hk. unfold ith. rewrite list_lookup_insert_eq; [ done | ].
  unfold len in Hk. lia.
Qed.

Lemma ith_insert_ne (l : list Z) (k k' v : Z) :
  0 <= k -> 0 <= k' -> k <> k' -> (<[Z.to_nat k := v]> l).[k'] = l.[k'].
Proof.
  intros Hk Hk' Hne. unfold ith. rewrite list_lookup_insert_ne; [ done | lia ].
Qed.

Lemma len_py_repeat {A : Type} (v : A) (n : Z) : 0 <= n -> len (py_repeat v n) = n.
Proof. intros Hn. unfold len, py_repeat. rewrite length_replicate. lia. Qed.

Lemma ith_py_repeat (n k : Z) : (py_repeat 0 n).[k] = 0.
Proof.
  unfold ith, py_repeat.
  destruct (replicate (Z.to_nat n) 0 !! Z.to_nat k) eqn:E; [ | done ].
  apply lookup_replicate in E. simpl. tauto.
Qed.

Lemma clamp_index_in (n k : Z) : 0 <= k <= n -> clamp_index n k = k.
Proof. intros Hk. unfold clamp_index. replace (k <? 0) with false by lia. lia. Qed.

Lemma py_slice_in {A : Type} (l : list A) (a b : Z) :
  0 <= a <= b -> b <= len l ->
  py_slice l a b = take (Z.to_nat (b - a)) (drop (Z.to_nat a) l).
Proof.
  intros Ha Hb. unfold py_slice. by rewrite !clamp_index_in by lia.
Qed.

Lemma len_py_slice {A : Type} (l : list A) (a b : Z) :
  0 <= a <= b -> b <= len l -> len (py_slice l a b) = b - a.
Proof.
  intros Ha Hb. rewrite py_slice_in by done.
  unfold len in *. rewrite length_take, length_drop. lia.
Qed.

Lemma ith_py_slice (l : list Z) (a b k : Z) :
  0 <= a <= b -> b <= len l -> 0 <= k < b - a -> (py_slice l a b).[k] = l.[a + k].
Proof.
  intros Ha Hb Hk. rewrite py_slice_in by done.
  unfold ith. rewrite lookup_take_lt by lia. rewrite lookup_drop.
  by replace (Z.to_nat a + Z.to_nat k)%nat with (Z.to_nat (a + k)) by lia.
Qed.

(** Two lists of the same length with the same elements are equal. *)
Lemma list_ith_ext (l1 l2 : list Z) :
  len l1 = len l2 -> (forall k, 0 <= k < len l1 -> l1.[k] = l2.[k]) -> l1 = l2.
Proof.
  intros Hlen Hk. apply list_eq. intros n.
  destruct (decide (n < length l1)%nat) as [Hn | Hn].
  - specialize (Hk (Z.of_nat n)).
    rewrite <- (Nat2Z.id n).
    rewrite !lookup_ith by (unfold len in *; lia).
    f_equal. apply Hk. unfold len. lia.
  - rewrite !(proj2 (lookup_ge_None _ _)); [ done | unfold len in *; lia | lia ].
Qed.

(** ** Reasoning about loops *)

Section WhileRule.
Context {St R : Type}.
Variable cond : St -> exec bool.
Variable body : St -> exec (St + R).

(** More fuel does not change a finished run. *)
Lemma while_fuel_mono (fuel fuel' : nat) (s : St) (x : St + R) :
  while cond body fuel s = Done x -> (fuel <= fuel')%nat ->
  while cond body fuel' s = Done x.
Proof.
  revert fuel' s. induction fuel as [ | fuel IH ]; intros fuel' s Hrun Hle.
  - discriminate.
  - destruct fuel' as [ | fuel' ]; [ lia | ].
    simpl in *. destruct (cond s) as [ [ | ] | | ]; simpl in *; try done.
    destruct (body s) as [ [ s' | r ] | | ]; simpl in *; try done.
    apply IH; [ done | lia ].
Qed.

Variable Inv : St -> Prop.
Variable Post : R -> Prop.
Variable measure : St -> Z.

Hypothesis measure_nonneg : forall s, Inv s -> 0 <= measure s.
Hypothesis cond_total : forall s, Inv s -> exists b, cond s = Done b.
Hypothesis body_step : forall s, Inv s -> cond s = Done true ->
  (exists s', body s = Done (inl s') /\ Inv s' /\ measure s' < measure s) \/
  (exists r, body s = Done (inr r) /\ Post r).

(** Total correctness: with more fuel than the measure, the loop ends,
    either at a state where the test fails or by a return. *)
Lemma while_total (fuel : nat) (s : St) :
  Inv s -> measure s < Z.of_nat fuel ->
  (exists s', while cond body fuel s = Done (inl s') /\ Inv s' /\ cond s' = Done false) \/
  (exists r, while cond body fuel s = Done (inr r) /\ Post r).
Proof.
  revert s. induction fuel as [ | fuel IH ]; intros s HI Hm.
  - specialize (measure_nonneg s HI). lia.
  - simpl. destruct (cond_total s HI) as [ [ | ] Hc ]; rewrite Hc; simpl.
    + destruct (body_step s HI Hc) as [ (s' & Hb & HI' & Hlt) | (r & Hb & HP) ];
        rewrite Hb; simpl.
      * apply IH; [ done | lia ].
      * right. eauto.
    + left. eauto.
Qed.

(** The invariant holds at every state the loop goes through. *)
Lemma reaches_invariant (s0 s : St) :
  Inv s0 -> reaches cond body s0 s -> Inv s.
Proof.
  intros H0 Hr. induction Hr as [ | s s' Hr IH Hc Hb ]; [ done | ].
  destruct (body_step s IH Hc) as [ (s'' & Hb' & HI' & _) | (r & Hb' & _) ];
    congruence.
Qed.
End WhileRule.

(** ** Runs and the states they go through *)

Section WhileTrace.
Context {St R : Type}.
Variable cond : St -> exec bool.
Variable body : St -> exec (St + R).

Lemma reaches_first (s0 s1 s : St) :
  cond s0 = Done true -> body s0 = Done (inl s1) ->
  reaches cond body s1 s -> reaches cond body s0 s.
Proof.
  intros Hc Hb Hr. induction Hr as [ | s s' Hr IH Hc' Hb' ].
  - eapply reaches_next; [ apply reaches_start | done .. ].
  - eapply reaches_next; done.
Qed.

(** A value returned by the loop was returned by the body at a state the
    run went through. *)
Lemma while_return_reached (fuel : nat) (s0 : St) (r : R) :
  while cond body fuel s0 = Done (inr r) ->
  exists s, reaches cond body s0 s /\ cond s = Done true /\ body s = Done (inr r).
Proof.
  revert s0. induction fuel as [ | fuel IH ]; intros s0 Hrun; [ done | ].
  simpl in Hrun. destruct (cond s0) as [ [ | ] | | ] eqn:Hc; simpl in Hrun; try done.
  destruct (body s0) as [ [ s1 | r' ] | | ] eqn:Hb; simpl in Hrun; try done.
  - destruct (IH s1 Hrun) as (s & Hr & Hcs & Hbs).
    exists s. split; [ by eapply reaches_first | done ].
  - exists s0. split; [ apply reaches_start | ]. split; [ done | congruence ].
Qed.

(** The number of rounds of a run that ends. *)
Lemma iterations_zero (fuel : nat) (s : St) :
  cond s = Done false -> iterations cond body fuel s = 0%nat.
Proof. intros Hc. destruct fuel; simpl; [ done | by rewrite Hc ]. Qed.

Lemma iterations_pos (fuel : nat) (s : St) :
  cond s = Done true -> (0 < iterations cond body (S fuel) s)%nat.
Proof. intros Hc. simpl. rewrite Hc. lia. Qed.

Lemma while_return_first (fuel : nat) (s : St) (r : R) :
  cond s = Done true -> body s = Done (inr r) ->
  while cond body (S fuel) s = Done (inr r).
Proof. intros Hc Hb. simpl. rewrite Hc. simpl. by rewrite Hb. Qed.

(** More fuel does not change what a finished loop hands to the code
    after it. *)
Lemma while_then_fuel_mono {B : Type} (k : St + R -> exec B)
    (fuel fuel' : nat) (s : St) (b : B) :
  (x ← while cond body fuel s; k x) = Done b -> (fuel <= fuel')%nat ->
  (x ← while cond body fuel' s; k x) = Done b.
Proof.
  intros Hrun Hle.
  destruct (while cond body fuel s) as [ x | | ] eqn:Hw; [ | done | done ].
  by rewrite (while_fuel_mono cond body fuel fuel' s x Hw Hle).
Qed.
End WhileTrace.

(** ** The prefix table *)

Lemma pborder_zero (p : str) (n : Z) : 0 <= n -> pborder p 0 n.
Proof. intros Hn. split; [ lia | intros t Ht; lia ]. Qed.

Lemma pborder_extend (p : str) (k n : Z) :
  pborder p k n -> p.[k] = p.[n] -> pborder p (k + 1) (n + 1).
Proof.
  intros [Hk Hb] Heq. split; [ lia | ]. intros t Ht.
  destruct (decide (t = k)) as [-> | Hne].
  - rewrite Heq. f_equal. lia.
  - rewrite Hb by lia. f_equal. lia.
Qed.

Lemma pborder_shrink (p : str) (k n : Z) :
  pborder p (k + 1) (n + 1) -> 0 <= k -> pborder p k n /\ p.[k] = p.[n].
Proof.
  intros [Hk Hb] Hk0. split; [ split; [ lia | ] | ].
  - intros t Ht. rewrite Hb by lia. f_equal. lia.
  - rewrite Hb by lia. f_equal. lia.
Qed.

(** A border of a border is a border. *)
Lemma pborder_trans (p : str) (j k n : Z) :
  pborder p j k -> pborder p k n -> pborder p j n.
Proof.
  intros [Hj Hbj] [Hk Hbk]. split; [ lia | ]. intros t Ht.
  rewrite Hbj by lia. rewrite Hbk by lia. f_equal. lia.
Qed.

(** Of two borders of the same word, the shorter is a border of the longer. *)
Lemma pborder_nest (p : str) (j k n : Z) :
  pborder p j n -> pborder p k n -> j <= k -> pborder p j k.
Proof.
  intros [Hj Hbj] [Hk Hbk] Hle. split; [ lia | ]. intros t Ht.
  rewrite (Hbk (k - j + t)) by lia. rewrite Hbj by lia. f_equal. lia.
Qed.

Lemma is_pi_unique (p : str) (n v v' : Z) : is_pi p n v -> is_pi p n v' -> v = v'.
Proof.
  intros (Hv & Hb & Hmax) (Hv' & Hb' & Hmax').
  specialize (Hmax v' Hv' Hb'). specialize (Hmax' v Hv Hb). lia.
Qed.

Lemma lps_inv_init (pattern : str) :
  pattern <> [] -> lps_inv pattern (compute_lps_init pattern).
Proof.
  intros Hne. apply len_pos in Hne. unfold compute_lps_init, lps_inv.
  pose proof (len_nonneg pattern).
  split; [ by apply len_py_repeat | ].
  split; [ lia | ]. split; [ lia | ].
  split; [ by apply pborder_zero | ].
  split.
  - intros k Hk. assert (k = 0) as -> by lia. rewrite ith_py_repeat.
    split; [ lia | ]. split; [ by apply pborder_zero | ].
    intros k Hk1 [Hk2 _]. lia.
  - intros _ k Hk _. lia.
Qed.

Lemma lps_body_step (pattern : str) (s : lps_state) :
  lps_inv pattern s -> compute_lps_cond pattern s = Done true ->
  exists s', compute_lps_body pattern s = Done (inl s') /\ lps_inv pattern s' /\
             lps_measure pattern s' < lps_measure pattern s /\
             st_i s <= st_i s'.
Proof.
  destruct s as [lps length i]. unfold compute_lps_cond, lps_measure. simpl.
  intros (Hlen & Hi & Hl & Hb & Htab & Hmax) Hc.
  assert (i < len pattern) as Hi' by (injection Hc; lia).
  specialize (Hmax Hi').
  rewrite (py_get_Done pattern i) by lia. simpl.
  rewrite (py_get_Done pattern length) by lia. simpl.
  destruct (Z.eqb_spec pattern.[i] pattern.[length]) as [Heq | Hneq].
  - (* the border extends *)
    rewrite py_set_Done by lia. simpl. eexists. split; [ reflexivity | ].
    simpl. split; [ | lia ].
    assert (is_pi pattern (i + 1) (length + 1)) as Hpi.
    { split; [ lia | ]. split; [ by apply pborder_extend | ].
      intros k Hk Hbk. destruct (decide (k <= 0)) as [ | Hk0 ]; [ lia | ].
      specialize (Hmax (k - 1)). replace (k - 1 + 1) with k in Hmax by lia.
      specialize (Hmax ltac:(lia) Hbk). lia. }
    rewrite len_insert.
    split; [ done | ]. split; [ lia | ]. split; [ lia | ].
    split; [ by apply pborder_extend | ]. split.
    + intros k Hk. destruct (decide (k = i)) as [-> | Hne].
      * by rewrite ith_insert_eq by lia.
      * rewrite ith_insert_ne by lia. apply Htab. lia.
    + intros _ k Hk Hbk. apply pborder_shrink in Hbk as [Hbk _]; [ | lia ].
      destruct Hpi as (_ & _ & Hpimax). apply Hpimax; [ lia | done ].
  - destruct (Z.eqb_spec length 0) as [-> | Hl0]; simpl.
    + (* no border of pattern[0..i] at all *)
      rewrite py_set_Done by lia. simpl. eexists. split; [ reflexivity | ].
      simpl. split; [ | lia ].
      assert (is_pi pattern (i + 1) 0) as Hpi.
      { split; [ lia | ]. split; [ apply pborder_zero; lia | ].
        intros k Hk Hbk. destruct (decide (k <= 0)) as [ | Hk0 ]; [ done | ].
        specialize (Hmax (k - 1)). replace (k - 1 + 1) with k in Hmax by lia.
        specialize (Hmax ltac:(lia) Hbk). assert (k = 1) as -> by lia.
        apply (pborder_shrink pattern 0 i) in Hbk as [_ Hbk]; [ | lia ].
        congruence. }
      rewrite len_insert.
      split; [ done | ]. split; [ lia | ]. split; [ lia | ].
      split; [ apply pborder_zero; lia | ]. split.
      * intros k Hk. destruct (decide (k = i)) as [-> | Hne].
        -- by rewrite ith_insert_eq by lia.
        -- rewrite ith_insert_ne by lia. apply Htab. lia.
      * intros _ k Hk Hbk. apply pborder_shrink in Hbk as [Hbk _]; [ | lia ].
        destruct Hpi as (_ & _ & Hpimax). apply Hpimax; [ lia | done ].
    + (* fall back to the longest border of the current border *)
      rewrite py_get_Done by lia. simpl. eexists. split; [ reflexivity | ].
      simpl.
      pose proof (Htab (length - 1) ltac:(lia)) as (Hv & Hbv & Hvmax).
      replace (length - 1 + 1) with length in * by lia.
      pose proof Hbv as [Hv0 _].
      split; [ | lia ].
      split; [ done | ]. split; [ lia | ]. split; [ lia | ].
      split; [ by apply (pborder_trans pattern _ length) | ]. split; [ done | ].
      intros _ k Hk Hbk. pose proof (Hmax k Hk Hbk) as Hkl.
      apply pborder_shrink in Hbk as [Hbk Hki]; [ | lia ].
      assert (k <> length) as Hne by congruence.
      apply Hvmax; [ lia | ]. apply (pborder_nest pattern k length i); [ done .. | lia ].
Qed.

(** [compute_lps] returns, and its table holds the prefix function. *)
Lemma compute_lps_fuel_enough (fuel : nat) (pattern : str) :
  2 * len pattern < Z.of_nat fuel ->
  exists lps, compute_lps_fuel fuel pattern = Done lps /\
    len lps = len pattern /\
    forall k, 0 <= k < len pattern -> is_pi pattern (k + 1) lps.[k].
Proof.
  intros Hfuel. destruct (decide (pattern = [])) as [-> | Hne].
  - destruct fuel as [ | fuel ]; [ rewrite (@len_nil Z) in Hfuel; lia | ].
    exists []. split; [ done | ]. split; [ done | ].
    intros k Hk. rewrite (@len_nil Z) in Hk. lia.
  - unfold compute_lps_fuel.
    destruct (while_total (compute_lps_cond pattern) (compute_lps_body pattern)
                (lps_inv pattern) (fun _ => False) (lps_measure pattern))
      with (fuel := fuel) (s := compute_lps_init pattern)
      as [ (s' & Hrun & HI & Hc) | (r & _ & []) ].
    + intros [lps length i] (_ & Hi & Hl & _). unfold lps_measure. simpl. lia.
    + intros s _. unfold compute_lps_cond. eauto.
    + intros s HI Hc. left.
      destruct (lps_body_step pattern s HI Hc) as (s' & Hb & HI' & Hm & _). eauto.
    + by apply lps_inv_init.
    + unfold lps_measure. simpl. lia.
    + rewrite Hrun. simpl. destruct s' as [lps length i]. simpl.
      exists lps. split; [ done | ].
      destruct HI as (Hlen & Hi & _ & _ & Htab & _).
      unfold compute_lps_cond in Hc. simpl in Hc.
      assert (i = len pattern) as -> by (injection Hc; lia).
      split; done.
Qed.

Lemma compute_lps_correct (pattern : str) :
  exists lps, compute_lps pattern = Done lps /\
    len lps = len pattern /\
    forall k, 0 <= k < len pattern -> is_pi pattern (k + 1) lps.[k].
Proof. apply compute_lps_fuel_enough. unfold len. lia. Qed.

(** ** What a matcher has to return *)

Lemma occurs_at_pointwise (text pattern : str) (i : Z) :
  occurs_at text pattern i <->
  0 <= i /\ i + len pattern <= len text /\
  forall t, 0 <= t < len pattern -> text.[i + t] = pattern.[t].
Proof.
  pose proof (len_nonneg pattern). unfold occurs_at. split.
  - intros (Hi & Hle & Heq). split; [ done | ]. split; [ done | ].
    intros t Ht. rewrite <- Heq at 1. rewrite ith_py_slice by lia. done.
  - intros (Hi & Hle & Hpt). split; [ done | ]. split; [ done | ].
    apply list_ith_ext.
    + rewrite len_py_slice by lia. lia.
    + intros k Hk. rewrite len_py_slice in Hk by lia.
      rewrite ith_py_slice by lia. apply Hpt. lia.
Qed.

Lemma search_result_unique (text pattern : str) (r r' : Z) :
  search_result text pattern r -> search_result text pattern r' -> r = r'.
Proof.
  intros [ [Ho Hmin] | [-> Hno] ] [ [Ho' Hmin'] | [-> Hno'] ].
  - specialize (Hmin r' Ho'). specialize (Hmin' r Ho). lia.
  - by destruct (Hno' r).
  - by destruct (Hno r').
  - done.
Qed.

(** ** The KMP scan *)

Section KmpScan.
Variables text pattern : str.
Variable lps : list Z.
Hypothesis pattern_nonempty : pattern <> [].
Hypothesis lps_len : len lps = len pattern.
Hypothesis lps_pi :
  forall k, 0 <= k < len pattern -> is_pi pattern (k + 1) lps.[k].

Lemma kmp_inv_init : kmp_inv text pattern (0, 0).
Proof.
  pose proof (len_pos pattern pattern_nonempty). pose proof (len_nonneg text).
  unfold kmp_inv.
  split; [ lia | ]. split; [ lia | ]. split; [ lia | ]. split.
  - intros t Ht. lia.
  - intros k (Hk & _). lia.
Qed.

Lemma kmp_body_step (s : Z * Z) :
  kmp_inv text pattern s -> kmp_cond text s = Done true ->
  (exists s', kmp_body text pattern lps s = Done (inl s') /\
              kmp_inv text pattern s' /\
              kmp_measure text s' < kmp_measure text s /\
              s.1 <= s'.1 /\
              (s'.1 = s.1 -> s'.2 < s.2)) \/
  (exists r, kmp_body text pattern lps s = Done (inr r) /\
             occurs_at text pattern r /\
             forall k, occurs_at text pattern k -> r <= k).
Proof.
  destruct s as [i j]. unfold kmp_cond, kmp_measure. simpl.
  intros (Hj & Hi & HjM & Hpre & Hmin) Hc.
  assert (i < len text) as Hi' by (injection Hc; lia).
  rewrite (py_get_Done pattern j) by lia. simpl.
  rewrite (py_get_Done text i) by lia. simpl.
  destruct (Z.eqb_spec pattern.[j] text.[i]) as [Heq | Hneq].
  - assert (forall t, 0 <= t < j + 1 -> pattern.[t] = text.[i - j + t]) as Hpre'.
    { intros t Ht. destruct (decide (t = j)) as [-> | Hne].
      - rewrite Heq. f_equal. lia.
      - apply Hpre. lia. }
    destruct (Z.eqb_spec (j + 1) (len pattern)) as [HM | HM].
    + right. eexists. split; [ reflexivity | ].
      replace (i + 1 - (j + 1)) with (i - j) by lia. split; [ | done ].
      apply occurs_at_pointwise. split; [ lia | ]. split; [ lia | ].
      intros t Ht. symmetry. apply Hpre'. lia.
    + left. eexists. split; [ reflexivity | ]. simpl.
      split; [ | lia ]. split; [ lia | ]. split; [ lia | ]. split; [ lia | ].
      split.
      * intros t Ht. rewrite Hpre' by lia. f_equal. lia.
      * intros k Hk. specialize (Hmin k Hk). lia.
  - destruct (Z.eqb_spec j 0) as [-> | Hj0]; simpl.
    + left. eexists. split; [ reflexivity | ]. simpl.
      split; [ | lia ]. split; [ lia | ]. split; [ lia | ]. split; [ lia | ].
      split; [ intros t Ht; lia | ].
      intros k Hk. pose proof (Hmin k Hk) as Hik.
      destruct (decide (k = i)) as [-> | Hne]; [ | lia ].
      apply occurs_at_pointwise in Hk as (_ & _ & Hk).
      specialize (Hk 0 ltac:(lia)). replace (i + 0) with i in Hk by lia.
      congruence.
    + left. rewrite (py_get_Done lps (j - 1)) by lia. simpl.
      eexists. split; [ reflexivity | ]. simpl.
      pose proof (lps_pi (j - 1) ltac:(lia)) as (Hv & Hbv & Hvmax).
      replace (j - 1 + 1) with j in * by lia.
      pose proof Hbv as [Hv0 Hbv'].
      split; [ | lia ]. split; [ lia | ]. split; [ lia | ]. split; [ lia | ].
      split.
      * intros t Ht. rewrite Hbv' by lia. rewrite Hpre by lia. f_equal. lia.
      * intros k Hk. pose proof (Hmin k Hk) as Hik.
        apply occurs_at_pointwise in Hk as (_ & HkN & Hk).
        destruct (decide (i - lps.[j - 1] <= k)) as [ | Hlt ]; [ done | ].
        exfalso.
        destruct (decide (k = i - j)) as [-> | Hne].
        { specialize (Hk j ltac:(lia)).
          replace (i - j + j) with i in Hk by lia. congruence. }
        assert (pborder pattern (i - k) j) as Hb.
        { split; [ lia | ]. intros t Ht. rewrite <- Hk by lia.
          rewrite Hpre by lia. f_equal. lia. }
        specialize (Hvmax (i - k) ltac:(lia) Hb). lia.
Qed.

Lemma kmp_while_correct (fuel : nat) :
  2 * len text < Z.of_nat fuel ->
  (exists s, while (kmp_cond text) (kmp_body text pattern lps) fuel (0, 0)
             = Done (inl s) /\ forall k, ~ occurs_at text pattern k) \/
  (exists r, while (kmp_cond text) (kmp_body text pattern lps) fuel (0, 0)
             = Done (inr r) /\
             occurs_at text pattern r /\
             forall k, occurs_at text pattern k -> r <= k).
Proof.
  intros Hfuel.
  destruct (while_total (kmp_cond text) (kmp_body text pattern lps)
              (kmp_inv text pattern)
              (fun r => occurs_at text pattern r /\
                        forall k, occurs_at text pattern k -> r <= k)
              (kmp_measure text))
    with (fuel := fuel) (s := (0, 0))
    as [ (s' & Hrun & HI & Hc) | (r & Hrun & HP) ].
  - intros [i j] (Hj & Hi & _). unfold kmp_measure. simpl. lia.
  - intros s _. unfold kmp_cond. eauto.
  - intros s HI Hc.
    destruct (kmp_body_step s HI Hc) as [ (s' & Hb & HI' & Hm & _) | (r & Hb & HP) ];
      eauto.
  - apply kmp_inv_init.
  - unfold kmp_measure. simpl. lia.
  - left. exists s'. split; [ done | ]. destruct s' as [i j].
    destruct HI as (Hj & Hi & HjM & _ & Hmin).
    unfold kmp_cond in Hc. simpl in Hc.
    assert (i = len text) as -> by (injection Hc; lia).
    intros k Hk. pose proof (Hmin k Hk). destruct Hk as (_ & Hk & _). lia.
  - right. eauto.
Qed.
End KmpScan.

Lemma kmp_search_fuel_enough (fuel : nat) (text pattern : str) :
  pattern <> [] -> 2 * len text < Z.of_nat fuel ->
  exists r, kmp_search_fuel fuel text pattern = Done r /\
            search_result text pattern r.
Proof.
  intros Hne Hfuel. unfold kmp_search_fuel.
  destruct (compute_lps_correct pattern) as (lps & -> & Hlen & Hpi). simpl.
  destruct (kmp_while_correct text pattern lps Hne Hlen Hpi fuel Hfuel)
    as [ (s & -> & Hno) | (r & -> & Ho & Hmin) ]; simpl.
  - exists (-1). split; [ done | ]. right. done.
  - exists r. split; [ done | ]. left. done.
Qed.

Lemma kmp_search_correct (text pattern : str) :
  pattern <> [] ->
  exists r, kmp_search text pattern = Done r /\ search_result text pattern r.
Proof. intros Hne. apply kmp_search_fuel_enough; [ done | unfold len; lia ]. Qed.

(** ** The shift table *)

Lemma for_each_app {A St : Type} (body : St -> A -> exec St) (l1 l2 : list A) (s : St) :
  for_each body (l1 ++ l2) s = s' ← for_each body l1 s; for_each body l2 s'.
Proof.
  revert s. induction l1 as [ | x l1 IH ]; intros s; simpl; [ done | ].
  destruct (body s x); simpl; [ apply IH | done | done ].
Qed.

Lemma len_app {A : Type} (l1 l2 : list A) : len (l1 ++ l2) = len l1 + len l2.
Proof. unfold len. rewrite length_app. lia. Qed.

Lemma ith_app_l (l1 l2 : list Z) (k : Z) :
  0 <= k < len l1 -> (l1 ++ l2).[k] = l1.[k].
Proof.
  intros Hk. unfold ith. rewrite lookup_app_l; [ done | unfold len in Hk; lia ].
Qed.

Lemma ith_snoc (l : list Z) (x : Z) : (l ++ [x]).[len l] = x.
Proof.
  unfold ith, len. rewrite Nat2Z.id.
  rewrite lookup_app_r by lia. by rewrite Nat.sub_diag.
Qed.

Lemma enumerate_snoc {A : Type} (l : list A) (x : A) :
  enumerate (l ++ [x]) = enumerate l ++ [(len l, x)].
Proof.
  unfold enumerate. rewrite len_app.
  change (len [x]) with 1.
  rewrite seqZ_app by (pose proof (len_nonneg l); lia).
  rewrite zip_with_app by (rewrite length_seqZ; unfold len; lia).
  done.
Qed.

Lemma py_get_last (l : list Z) :
  l <> [] -> py_get l (-1) = Done l.[len l - 1].
Proof.
  intros Hne. apply len_pos in Hne. unfold py_get.
  replace (-1 <? 0) with true by lia.
  replace ((0 <=? -1 + len l) && (-1 + len l <? len l)) with true
    by (symmetry; apply andb_true_iff; lia).
  replace (-1 + len l) with (len l - 1) by lia.
  by rewrite lookup_ith by lia.
Qed.

Lemma py_slice_but_last {A : Type} (l : list A) :
  py_slice l 0 (-1) = take (length l - 1) l.
Proof.
  unfold py_slice, clamp_index. pose proof (len_nonneg l).
  replace (0 <? 0) with false by lia. replace (-1 <? 0) with true by lia.
  replace (Z.to_nat (Z.max 0 (Z.min (len l) 0))) with 0%nat by lia.
  rewrite drop_0. f_equal. unfold len in *. lia.
Qed.

Lemma shift_table_loop (l : list Z) (length : Z) :
  exists table,
    for_each (fun (table : gmap Z Z) '(i, c) => Done (<[c := length - i - 1]> table))
      (enumerate l) ∅ = Done table /\
    shift_entries l length table.
Proof.
  induction l as [ | x l IH ] using rev_ind.
  - exists ∅. split; [ done | ]. intros c. rewrite lookup_empty.
    intros k Hk. rewrite (@len_nil Z) in Hk. lia.
  - destruct IH as (table & Hrun & Hent).
    rewrite enumerate_snoc, for_each_app, Hrun. simpl.
    eexists. split; [ reflexivity | ].
    pose proof (len_nonneg l) as Hl.
    intros c. rewrite len_app. change (len [x]) with 1.
    destruct (decide (x = c)) as [-> | Hne].
    + rewrite lookup_insert_eq. exists (len l).
      split; [ | done ]. split; [ lia | ]. split; [ apply ith_snoc | ].
      intros k Hk. lia.
    + rewrite lookup_insert_ne by done. specialize (Hent c).
      destruct (table !! c) as [v | ].
      * destruct Hent as (i & (Hi & Hic & Hlast) & ->). exists i.
        split; [ | done ]. split; [ lia | ].
        split; [ by rewrite ith_app_l by lia | ].
        intros k Hk. destruct (decide (k = len l)) as [-> | Hk'].
        -- by rewrite ith_snoc.
        -- rewrite ith_app_l by lia. apply Hlast. lia.
      * intros k Hk. destruct (decide (k = len l)) as [-> | Hk'].
        -- by rewrite ith_snoc.
        -- rewrite ith_app_l by lia. apply Hent. lia.
Qed.

Lemma ith_take (l : list Z) (n : nat) (k : Z) :
  0 <= k < Z.of_nat n -> (take n l).[k] = l.[k].
Proof. intros Hk. unfold ith. rewrite lookup_take_lt by lia. done. Qed.

Lemma len_take_le {A : Type} (l : list A) (n : nat) :
  (n <= length l)%nat -> len (take n l) = Z.of_nat n.
Proof. intros Hn. unfold len. rewrite length_take. lia. Qed.

Lemma build_shift_table_correct (pattern : str) :
  pattern <> [] ->
  exists table, build_shift_table pattern = Done table /\
                shift_table_spec pattern table.
Proof.
  intros Hne. pose proof (len_pos pattern Hne) as Hm.
  unfold build_shift_table. rewrite py_slice_but_last.
  destruct (shift_table_loop (take (length pattern - 1) pattern) (len pattern))
    as (table & -> & Hent). simpl.
  rewrite py_get_last by done. simpl. eexists. split; [ reflexivity | ].
  assert (len (take (length pattern - 1) pattern) = len pattern - 1) as Hlen.
  { rewrite len_take_le by lia. unfold len in *. lia. }
  assert (forall k, 0 <= k < len pattern - 1 ->
            (take (length pattern - 1) pattern).[k] = pattern.[k]) as Hith.
  { intros k Hk. apply ith_take. unfold len in *. lia. }
  unfold shift_entries in Hent. rewrite Hlen in Hent.
  intros c. unfold dict_setdefault.
  assert (forall v, table !! c = Some v ->
            exists i, last_index_before pattern (len pattern - 1) c i /\
                      v = len pattern - i - 1) as Hsome.
  { intros v Hv. specialize (Hent c). rewrite Hv in Hent.
    destruct Hent as (i & (Hi & Hic & Hlast) & ->). exists i.
    split; [ | done ]. split; [ done | ]. split; [ by rewrite <- Hith | ].
    intros k Hk. rewrite <- Hith by lia. apply Hlast. lia. }
  assert (table !! c = None ->
            forall k, 0 <= k < len pattern - 1 -> pattern.[k] <> c) as Hnone.
  { intros Hv k Hk. specialize (Hent c). rewrite Hv in Hent.
    rewrite <- Hith by lia. by apply Hent. }
  destruct (table !! pattern.[len pattern - 1]) as [w | ] eqn:Hlast.
  - destruct (table !! c) as [v | ] eqn:Hc.
    + left. by apply Hsome.
    + intros k Hk. destruct (decide (k = len pattern - 1)) as [-> | Hk'].
      * congruence.
      * apply Hnone; [ done | lia ].
  - destruct (decide (pattern.[len pattern - 1] = c)) as [<- | Hcne].
    + rewrite lookup_insert_eq. right. split; [ by apply Hnone | done ].
    + rewrite lookup_insert_ne by done.
      destruct (table !! c) as [v | ] eqn:Hc.
      * left. by apply Hsome.
      * intros k Hk. destruct (decide (k = len pattern - 1)) as [-> | Hk'].
        -- done.
        -- apply Hnone; [ done | lia ].
Qed.

(** The shift [boyer_moore_search] takes for the text symbol [c]: between 1
    and [m], and never beyond the last occurrence of [c] before the final
    position. *)
Lemma shift_safe (pattern : str) (table : gmap Z Z) (c : char) :
  pattern <> [] -> shift_table_spec pattern table ->
  let sh := dict_get table c (len pattern) in
  1 <= sh <= len pattern /\
  forall d, 1 <= d < sh -> pattern.[len pattern - 1 - d] <> c.
Proof.
  intros Hne Hspec. pose proof (len_pos pattern Hne) as Hm.
  specialize (Hspec c). unfold dict_get. simpl.
  destruct (table !! c) as [v | ]; simpl.
  - destruct Hspec as [ (i & (Hi & Hic & Hlast) & ->) | (Hno & _ & ->) ].
    + split; [ lia | ]. intros d Hd. apply Hlast. lia.
    + split; [ lia | ]. intros d Hd. apply Hno. lia.
  - split; [ lia | ]. intros d Hd. apply Hspec. lia.
Qed.

(** ** The Boyer-Moore scan *)

Section BoyerMooreScan.
Variables text pattern : str.
Variable shift_table : gmap Z Z.
Hypothesis pattern_nonempty : pattern <> [].
Hypothesis shift_table_ok : shift_table_spec pattern shift_table.

Lemma bm_compare_cond_in (i j : Z) :
  0 <= i -> i + len pattern <= len text -> -1 <= j < len pattern ->
  bm_compare_cond text pattern i j =
  Done (if 0 <=? j then text.[i + j] =? pattern.[j] else false).
Proof.
  intros Hi HiN Hj. unfold bm_compare_cond.
  destruct (Z.leb_spec 0 j) as [Hj0 | Hj0]; [ | done ].
  rewrite (py_get_Done text) by lia. simpl.
  rewrite (py_get_Done pattern) by lia. done.
Qed.

(** The right-to-left comparison stops at the rightmost mismatch, or at
    -1 when the whole window matches. *)
Lemma bm_compare_correct (i : Z) :
  0 <= i -> i + len pattern <= len text ->
  exists j,
    while (bm_compare_cond text pattern i) bm_compare_body
      (length pattern + 1) (len pattern - 1) = Done (inl j) /\
    -1 <= j < len pattern /\
    (forall t, j < t < len pattern -> text.[i + t] = pattern.[t]) /\
    (0 <= j -> text.[i + j] <> pattern.[j]).
Proof.
  intros Hi HiN. pose proof (len_pos pattern pattern_nonempty) as Hm.
  destruct (while_total (bm_compare_cond text pattern i) bm_compare_body
              (fun j => -1 <= j < len pattern /\
                        forall t, j < t < len pattern -> text.[i + t] = pattern.[t])
              (fun _ => False) (fun j => j + 1))
    with (fuel := (length pattern + 1)%nat) (s := len pattern - 1)
    as [ (j & Hrun & [Hj Hsuf] & Hc) | (r & _ & []) ].
  - intros j [Hj _]. lia.
  - intros j [Hj _]. rewrite bm_compare_cond_in by done. eauto.
  - intros j [Hj Hsuf] Hc. rewrite bm_compare_cond_in in Hc by done.
    left. exists (j - 1). split; [ done | ].
    destruct (Z.leb_spec 0 j) as [Hj0 | Hj0]; [ | done ].
    assert (text.[i + j] = pattern.[j]) as Heq by (injection Hc; lia).
    split; [ | lia ]. split; [ lia | ].
    intros t Ht. destruct (decide (t = j)) as [-> | Hne]; [ done | ].
    apply Hsuf. lia.
  - split; [ lia | ]. intros t Ht. lia.
  - unfold len. lia.
  - exists j. split; [ done | ]. split; [ done | ]. split; [ done | ].
    intros Hj0. rewrite bm_compare_cond_in in Hc by done.
    replace (0 <=? j) with true in Hc by lia. injection Hc. lia.
Qed.

Lemma bm_body_step (i : Z) :
  bm_inv text pattern i -> bm_cond text pattern i = Done true ->
  (exists i', bm_body text pattern shift_table i = Done (inl i') /\
              bm_inv text pattern i' /\ i < i' <= i + len pattern) \/
  (exists r, bm_body text pattern shift_table i = Done (inr r) /\
             occurs_at text pattern r /\
             forall k, occurs_at text pattern k -> r <= k).
Proof.
  intros [Hi Hmin] Hc. pose proof (len_pos pattern pattern_nonempty) as Hm.
  unfold bm_cond in Hc.
  assert (i + len pattern <= len text) as HiN by (injection Hc; lia).
  unfold bm_body.
  destruct (bm_compare_correct i) as (j & -> & Hj & Hsuf & Hmis); [ lia .. | ].
  simpl. destruct (Z.ltb_spec j 0) as [Hj0 | Hj0].
  - right. exists i. split; [ done | ]. split; [ | done ].
    apply occurs_at_pointwise. split; [ lia | ]. split; [ done | ].
    intros t Ht. apply Hsuf. lia.
  - left. rewrite (py_get_Done text) by lia. simpl.
    eexists. split; [ reflexivity | ].
    destruct (shift_safe pattern shift_table text.[i + len pattern - 1]
                pattern_nonempty shift_table_ok) as [Hsh Hsafe].
    split; [ | lia ]. split; [ lia | ].
    intros k Hk. pose proof (Hmin k Hk) as Hik.
    apply occurs_at_pointwise in Hk as (_ & HkN & Hk).
    match goal with |- ?i' <= k => destruct (decide (i' <= k)) as [ | Hlt ] end;
      [ done | exfalso ].
    destruct (decide (k = i)) as [-> | Hne].
    + apply (Hmis Hj0). apply Hk. lia.
    + apply (Hsafe (k - i)); [ lia | ].
      rewrite <- Hk by lia. f_equal. lia.
Qed.

Lemma bm_while_correct (fuel : nat) :
  len text < Z.of_nat fuel ->
  (exists i, while (bm_cond text pattern) (bm_body text pattern shift_table) fuel 0
             = Done (inl i) /\ forall k, ~ occurs_at text pattern k) \/
  (exists r, while (bm_cond text pattern) (bm_body text pattern shift_table) fuel 0
             = Done (inr r) /\
             occurs_at text pattern r /\
             forall k, occurs_at text pattern k -> r <= k).
Proof.
  intros Hfuel.
  destruct (while_total (bm_cond text pattern) (bm_body text pattern shift_table)
              (bm_inv text pattern)
              (fun r => occurs_at text pattern r /\
                        forall k, occurs_at text pattern k -> r <= k)
              (bm_measure text))
    with (fuel := fuel) (s := 0)
    as [ (i & Hrun & [Hi Hmin] & Hc) | (r & Hrun & HP) ].
  - intros i [Hi _]. unfold bm_measure. lia.
  - intros i _. unfold bm_cond. eauto.
  - intros i HI Hc. unfold bm_measure.
    destruct (bm_body_step i HI Hc) as [ (i' & Hb & HI' & Hlt) | (r & Hb & HP) ].
    + left. exists i'. split; [ done | ]. split; [ done | lia ].
    + right. eauto.
  - split; [ pose proof (len_nonneg text); lia | ]. intros k (Hk & _). done.
  - unfold bm_measure. lia.
  - left. exists i. split; [ done | ].
    unfold bm_cond in Hc.
    intros k Hk. pose proof (Hmin k Hk). destruct Hk as (_ & Hk & _).
    injection Hc. lia.
  - right. eauto.
Qed.
End BoyerMooreScan.

Lemma boyer_moore_search_fuel_enough (fuel : nat) (text pattern : str) :
  pattern <> [] -> len text < Z.of_nat fuel ->
  exists r, boyer_moore_search_fuel fuel text pattern = Done r /\
            search_result text pattern r.
Proof.
  intros Hne Hfuel. unfold boyer_moore_search_fuel.
  destruct (build_shift_table_correct pattern Hne) as (table & -> & Hspec). simpl.
  destruct (bm_while_correct text pattern table Hne Hspec fuel Hfuel)
    as [ (s & -> & Hno) | (r & -> & Ho & Hmin) ]; simpl.
  - exists (-1). split; [ done | ]. right. done.
  - exists r. split; [ done | ]. left. done.
Qed.

Lemma boyer_moore_search_correct (text pattern : str) :
  pattern <> [] ->
  exists r, boyer_moore_search text pattern = Done r /\ search_result text pattern r.
Proof.
  intros Hne. apply boyer_moore_search_fuel_enough; [ done | unfold len; lia ].
Qed.

(** ** The polynomial hash *)

Lemma len_cons {A : Type} (x : A) (l : list A) : len (x :: l) = len l + 1.
Proof. unfold len. simpl. lia. Qed.

Lemma ith_cons_0 (x : Z) (l : list Z) : (x :: l).[0] = x.
Proof. done. Qed.

Lemma ith_cons_pos (x : Z) (l : list Z) (k : Z) : 0 < k -> (x :: l).[k] = l.[k - 1].
Proof.
  intros Hk. unfold ith.
  replace (Z.to_nat k) with (S (Z.to_nat (k - 1))) by lia. done.
Qed.

Lemma poly_snoc (base : Z) (w : list Z) (d : Z) :
  poly base (w ++ [d]) = poly base w * base + d.
Proof.
  induction w as [ | c w IH ]; simpl.
  - rewrite (@len_nil Z). simpl. lia.
  - rewrite IH, len_app. change (len [d]) with 1.
    rewrite Z.pow_add_r by (pose proof (len_nonneg w); lia).
    rewrite Z.pow_1_r. lia.
Qed.

Section PolynomialHash.
Variables base modulus : Z.
Hypothesis modulus_nonzero : modulus <> 0.

Lemma py_mod_Done (a : Z) : py_mod a modulus = Done (a mod modulus).
Proof. unfold py_mod. by destruct (Z.eqb_spec modulus 0). Qed.

Lemma polynomial_hash_loop (n : Z) (l : list Z) (a h : Z) :
  a + len l = n ->
  for_each
    (fun hash_value '(i, c) =>
       power_of_base ← py_mod (base ^ (n - i - 1)) modulus;
       py_mod (hash_value + ord c * power_of_base) modulus)
    (zip (seqZ a (len l)) l) (h mod modulus)
  = Done ((h + poly base l) mod modulus).
Proof.
  revert a h. induction l as [ | c l IH ]; intros a h Ha.
  - simpl. by rewrite Z.add_0_r.
  - rewrite len_cons in *. pose proof (len_nonneg l) as Hl.
    rewrite seqZ_cons by lia. replace (Z.pred (len l + 1)) with (len l) by lia.
    simpl. rewrite !py_mod_Done. simpl. rewrite py_mod_Done. simpl.
    replace (n - a - 1) with (len l) by lia. unfold ord.
    replace ((h mod modulus + c * (base ^ len l mod modulus)) mod modulus)
      with ((h + c * base ^ len l) mod modulus).
    + rewrite IH by lia. f_equal. f_equal. lia.
    + rewrite Zplus_mod_idemp_l.
      rewrite <- (Zplus_mod_idemp_r (c * (base ^ len l mod modulus))).
      rewrite Z.mul_mod_idemp_r by done. by rewrite Zplus_mod_idemp_r.
Qed.

Lemma polynomial_hash_value (s : str) :
  polynomial_hash s base modulus = Done (poly base s mod modulus).
Proof.
  pose proof (polynomial_hash_loop (len s) s 0 0 eq_refl) as Hloop.
  rewrite Z.mod_0_l in Hloop by done. exact Hloop.
Qed.

(** One rolling step: drop the symbol [c] in front of [w], append [d]. *)
Lemma rolling_step (c d : Z) (w : list Z) :
  ((poly base (c :: w) mod modulus - ord c * (base ^ len w mod modulus)) mod modulus
   * base + ord d) mod modulus
  = poly base (w ++ [d]) mod modulus.
Proof.
  simpl. unfold ord. rewrite poly_snoc.
  assert ((((c * base ^ len w + poly base w) mod modulus
            - c * (base ^ len w mod modulus)) mod modulus)
          = poly base w mod modulus) as ->.
  { rewrite Zminus_mod. rewrite Z.mod_mod by done.
    rewrite Z.mul_mod_idemp_r by done.
    rewrite <- Zminus_mod. f_equal. lia. }
  rewrite <- (Zplus_mod_idemp_l (poly base w mod modulus * base)).
  rewrite Z.mul_mod_idemp_l by done. by rewrite Zplus_mod_idemp_l.
Qed.
End PolynomialHash.

(** The window of the text at [i], and the next one. *)
Lemma window_cons (text : str) (i m : Z) :
  0 <= i -> 1 <= m -> i + m <= len text ->
  py_slice text i (i + m) = text.[i] :: py_slice text (i + 1) (i + m).
Proof.
  intros Hi Hm HiN. apply list_ith_ext.
  - rewrite len_cons, !len_py_slice by lia. lia.
  - intros k Hk. rewrite len_py_slice in Hk by lia.
    rewrite ith_py_slice by lia.
    destruct (decide (k = 0)) as [-> | Hk0].
    + rewrite ith_cons_0. f_equal. lia.
    + rewrite ith_cons_pos by lia. rewrite ith_py_slice by lia. f_equal. lia.
Qed.

Lemma window_snoc (text : str) (i m : Z) :
  0 <= i -> 1 <= m -> i + m < len text ->
  py_slice text (i + 1) (i + 1 + m) = py_slice text (i + 1) (i + m) ++ [text.[i + m]].
Proof.
  intros Hi Hm HiN. apply list_ith_ext.
  - rewrite len_app, !len_py_slice by lia. change (len [text.[i + m]]) with 1. lia.
  - intros k Hk. rewrite len_py_slice in Hk by lia.
    rewrite ith_py_slice by lia.
    destruct (decide (k = m - 1)) as [-> | Hk0].
    + replace (m - 1) with (len (py_slice text (i + 1) (i + m))) at 2
        by (rewrite len_py_slice by lia; lia).
      rewrite ith_snoc. f_equal. lia.
    + rewrite ith_app_l by (rewrite len_py_slice by lia; lia).
      by rewrite ith_py_slice by lia.
Qed.

(** ** The Rabin-Karp scan *)

Lemma py_pow3_nonneg (b e m : Z) :
  m <> 0 -> 0 <= e -> py_pow3 b e m = Done (b ^ e mod m).
Proof.
  intros Hm He. unfold py_pow3.
  destruct (Z.eqb_spec m 0); [ done | ].
  by replace (0 <=? e) with true by lia.
Qed.

Lemma rk_modulus_nonzero : rk_modulus <> 0.
Proof. done. Qed.

(** What the body returns is a position where the slice equals the
    pattern, whatever the hashes are. *)
Lemma rk_body_return (text pattern : str) (base modulus sh hm : Z) (s : Z * Z) (r : Z) :
  rk_body text pattern base modulus sh hm s = Done (inr r) ->
  r = s.1 /\ py_slice text r (r + len pattern) = pattern.
Proof.
  destruct s as [i h]. unfold rk_body.
  destruct (sh =? h); simpl.
  - destruct (bool_decide_reflect (py_slice text i (i + len pattern) = pattern))
      as [Heq | Hneq].
    + intros [= <-]. done.
    + destruct (i <? len text - len pattern); [ | done ].
      destruct (py_get text i); simpl; try done.
      destruct (py_mod _ modulus); simpl; try done.
      destruct (py_get text _); simpl; try done.
      destruct (py_mod _ modulus); simpl; done.
  - destruct (i <? len text - len pattern); [ | done ].
    destruct (py_get text i); simpl; try done.
    destruct (py_mod _ modulus); simpl; try done.
    destruct (py_get text _); simpl; try done.
    destruct (py_mod _ modulus); simpl; done.
Qed.

Section RabinKarpScan.
Variables text pattern : str.
Hypothesis pattern_nonempty : pattern <> [].

Let hm : Z := rk_base ^ (len pattern - 1) mod rk_modulus.

(** One round at a window position [i] where [h] is the hash of the
    window, for any pattern hash [sh]: the round either returns [i],
    the window being the pattern, or goes on to [i + 1] with the hash of
    the next window (when there is one). *)
Lemma rk_body_roll (sh i h : Z) :
  0 <= i -> i + len pattern <= len text ->
  h = poly rk_base (py_slice text i (i + len pattern)) mod rk_modulus ->
  (rk_body text pattern rk_base rk_modulus sh hm (i, h) = Done (inr i) /\
   py_slice text i (i + len pattern) = pattern) \/
  (exists h', rk_body text pattern rk_base rk_modulus sh hm (i, h)
              = Done (inl (i + 1, h')) /\
              (sh = h -> py_slice text i (i + len pattern) <> pattern) /\
              (i + 1 + len pattern <= len text ->
               h' = poly rk_base (py_slice text (i + 1) (i + 1 + len pattern))
                    mod rk_modulus)).
Proof.
  intros Hi HiN Hh. unfold rk_body.
  pose proof (len_pos pattern pattern_nonempty) as Hm.
  destruct ((sh =? h)
            && bool_decide (py_slice text i (i + len pattern) = pattern)) eqn:Hchk.
  - left. split; [ done | ].
    apply andb_true_iff in Hchk as [_ Heq]. by apply bool_decide_eq_true in Heq.
  - right.
    assert (sh = h -> py_slice text i (i + len pattern) <> pattern) as Hne.
    { intros Hsh. apply andb_false_iff in Hchk as [Hchk | Hchk].
      - lia.
      - by apply bool_decide_eq_false in Hchk. }
    destruct (Z.ltb_spec i (len text - len pattern)) as [Hlt | Hge].
    + rewrite (py_get_Done text i) by lia. simpl.
      rewrite (py_get_Done text (i + len pattern)) by lia. simpl.
      eexists. split; [ reflexivity | ]. split; [ done | ]. intros _.
      rewrite (window_snoc text i (len pattern)) by lia.
      rewrite <- (rolling_step rk_base rk_modulus rk_modulus_nonzero text.[i]).
      rewrite <- window_cons by lia. rewrite <- Hh.
      rewrite len_py_slice by lia.
      replace (i + len pattern - (i + 1)) with (len pattern - 1) by lia.
      done.
    + exists h. split; [ done | ]. split; [ done | lia ].
Qed.

Let sh : Z := poly rk_base pattern mod rk_modulus.

Lemma rk_body_step (s : Z * Z) :
  rk_inv text pattern s -> rk_cond text pattern s = Done true ->
  (exists h', rk_body text pattern rk_base rk_modulus sh hm s
              = Done (inl (s.1 + 1, h')) /\
              rk_inv text pattern (s.1 + 1, h')) \/
  (exists r, rk_body text pattern rk_base rk_modulus sh hm s = Done (inr r) /\
             occurs_at text pattern r /\
             forall k, occurs_at text pattern k -> r <= k).
Proof.
  destruct s as [i h]. unfold rk_cond. simpl fst.
  intros (Hi & Hh & Hmin) Hc.
  assert (i + len pattern <= len text) as HiN by (injection Hc; lia).
  specialize (Hh HiN).
  destruct (rk_body_roll sh i h Hi HiN Hh) as [ [Hb Heq] | (h' & Hb & Hne & Hh') ].
  - right. exists i. split; [ done | ]. split; [ | done ]. by split.
  - left. exists h'. split; [ done | ]. split; [ lia | ]. split; [ done | ].
    intros k Hk. pose proof (Hmin k Hk).
    destruct (decide (k = i)) as [-> | ]; [ | lia ].
    destruct Hk as (_ & _ & Heq). destruct Hne; [ | done ].
    rewrite Heq in Hh. by subst h.
Qed.

Lemma rk_while_correct (h0 : Z) :
  h0 = poly rk_base (py_slice text 0 (len pattern)) mod rk_modulus ->
  let run :=
    while (rk_cond text pattern) (rk_body text pattern rk_base rk_modulus sh hm)
      (Z.to_nat (len text - len pattern + 1) + 1) (0, h0) in
  (exists s, run = Done (inl s) /\ forall k, ~ occurs_at text pattern k) \/
  (exists r, run = Done (inr r) /\
             occurs_at text pattern r /\
             forall k, occurs_at text pattern k -> r <= k).
Proof.
  intros Hh0. simpl.
  destruct (while_total (rk_cond text pattern)
              (rk_body text pattern rk_base rk_modulus sh hm)
              (rk_inv text pattern)
              (fun r => occurs_at text pattern r /\
                        forall k, occurs_at text pattern k -> r <= k)
              (rk_measure text pattern))
    with (fuel := (Z.to_nat (len text - len pattern + 1) + 1)%nat) (s := (0, h0))
    as [ (s' & Hrun & HI & Hc) | (r & Hrun & HP) ].
  - intros s _. unfold rk_measure. lia.
  - intros s _. unfold rk_cond. eauto.
  - intros s HI Hc.
    destruct (rk_body_step s HI Hc) as [ (h' & Hb & HI') | (r & Hb & HP) ].
    + left. eexists. split; [ done | ]. split; [ done | ].
      unfold rk_cond in Hc. unfold rk_measure. simpl. injection Hc. lia.
    + right. eauto.
  - split; [ done | ]. split; [ done | ]. intros k (Hk & _). done.
  - unfold rk_measure. simpl. lia.
  - left. exists s'. split; [ done | ]. destruct s' as [i h].
    destruct HI as (_ & _ & Hmin). unfold rk_cond in Hc. simpl in Hc.
    intros k Hk. pose proof (Hmin k Hk). destruct Hk as (_ & Hk & _).
    injection Hc. lia.
  - right. eauto.
Qed.

Lemma rabin_karp_search_correct :
  exists r, rabin_karp_search text pattern = Done r /\ search_result text pattern r.
Proof.
  pose proof (len_pos pattern pattern_nonempty) as Hm.
  unfold rabin_karp_search.
  rewrite !polynomial_hash_value by done. simpl.
  rewrite py_pow3_nonneg by (done || lia). simpl.
  destruct (rk_while_correct _ eq_refl)
    as [ (s' & Hrun & Hno) | (r & Hrun & Ho & Hmin) ]; simpl in Hrun.
  - fold sh hm. rewrite Hrun. simpl. exists (-1). split; [ done | ]. by right.
  - fold sh hm. rewrite Hrun. simpl. exists r. split; [ done | ]. by left.
Qed.
End RabinKarpScan.

(** ** Borders as prefixes and suffixes *)

Lemma ith_app_r (l1 l2 : list Z) (k : Z) :
  0 <= k -> (l1 ++ l2).[len l1 + k] = l2.[k].
Proof.
  intros Hk. unfold ith, len. rewrite lookup_app_r by lia.
  f_equal. f_equal. lia.
Qed.

Lemma py_slice_split (l : list Z) (a b c : Z) :
  0 <= a <= b -> b <= c -> c <= len l ->
  py_slice l a c = py_slice l a b ++ py_slice l b c.
Proof.
  intros Ha Hb Hc. apply list_ith_ext.
  - rewrite len_app, !len_py_slice by lia. lia.
  - intros k Hk. rewrite len_py_slice in Hk by lia.
    rewrite ith_py_slice by lia.
    destruct (decide (k < b - a)) as [Hlt | Hge].
    + rewrite ith_app_l by (rewrite len_py_slice by lia; lia).
      by rewrite ith_py_slice by lia.
    + replace k with (len (py_slice l a b) + (k - (b - a))) at 2
        by (rewrite len_py_slice by lia; lia).
      rewrite ith_app_r by lia. rewrite ith_py_slice by lia. f_equal. lia.
Qed.

Lemma prefix_suffix_pborder (p u : str) (n : Z) :
  0 <= n <= len p ->
  u `prefix_of` py_slice p 0 n -> u `suffix_of` py_slice p 0 n ->
  pborder p (len u) n.
Proof.
  intros Hn [t1 Hpre] [t2 Hsuf].
  assert (len (py_slice p 0 n) = n) as Hlen by (rewrite len_py_slice by lia; lia).
  pose proof (len_nonneg u) as Hu. pose proof (len_nonneg t1) as Ht1.
  pose proof (len_nonneg t2) as Ht2.
  pose proof Hlen as Hlen1. rewrite Hpre, len_app in Hlen1.
  pose proof Hlen as Hlen2. rewrite Hsuf, len_app in Hlen2.
  split; [ lia | ]. intros t Ht.
  transitivity u.[t].
  - rewrite <- (ith_app_l u t1) by lia. rewrite <- Hpre.
    rewrite ith_py_slice by lia. f_equal.
  - rewrite <- (ith_app_r t2 u) by lia. rewrite <- Hsuf.
    rewrite ith_py_slice by lia. f_equal. lia.
Qed.

Lemma pborder_prefix_suffix (p : str) (k n : Z) :
  0 <= n <= len p -> pborder p k n ->
  py_slice p 0 k `prefix_of` py_slice p 0 n /\
  py_slice p 0 k `suffix_of` py_slice p 0 n.
Proof.
  intros Hn [Hk Hb]. split.
  - exists (py_slice p k n). apply py_slice_split; lia.
  - exists (py_slice p 0 (n - k)).
    rewrite (py_slice_split p 0 (n - k) n) by lia. f_equal.
    apply list_ith_ext.
    + rewrite !len_py_slice by lia. lia.
    + intros t Ht. rewrite len_py_slice in Ht by lia.
      rewrite !ith_py_slice by lia.
      replace (0 + t) with t by lia. symmetry. apply Hb. lia.
Qed.

Lemma prefix_same_len (u w : str) : u `prefix_of` w -> len u = len w -> u = w.
Proof.
  intros [t ->] Hlen. rewrite len_app in Hlen.
  rewrite (len_zero_nil t) by lia. by rewrite app_nil_r.
Qed.

(** The pointwise and the prefix/suffix readings of an entry agree. *)
Lemma is_pi_longest_prefix_suffix (p : str) (n v : Z) :
  0 <= n <= len p -> is_pi p n v -> longest_prefix_suffix (py_slice p 0 n) v.
Proof.
  intros Hn (Hv & Hb & Hmax).
  assert (len (py_slice p 0 n) = n) as Hlen by (rewrite len_py_slice by lia; lia).
  pose proof Hb as [Hv0 _]. split.
  - exists (py_slice p 0 v).
    destruct (pborder_prefix_suffix p v n Hn Hb) as [Hpre Hsuf].
    assert (len (py_slice p 0 v) = v) as Hlenv by (rewrite len_py_slice by lia; lia).
    split; [ | done ]. split; [ done | ]. split; [ done | ].
    intros Heq. rewrite Heq in Hlenv. lia.
  - intros u (Hpre & Hsuf & Hne). apply Hmax.
    + destruct (decide (len u < n)) as [ | Hge ]; [ done | ]. destruct Hne.
      apply prefix_same_len; [ done | ].
      destruct Hpre as [t Ht]. pose proof Hlen as Hl. rewrite Ht, len_app in Hl.
      pose proof (len_nonneg t). lia.
    + by apply prefix_suffix_pborder.
Qed.

(** * The specification's claims *)

(** On a non-empty pattern the three matchers return the same value. *)
Lemma matchers_agree_nonempty (text pattern : str) :
  pattern <> [] ->
  exists r, kmp_search text pattern = Done r /\
            boyer_moore_search text pattern = Done r /\
            rabin_karp_search text pattern = Done r /\
            search_result text pattern r.
Proof.
  intros Hne.
  destruct (kmp_search_correct text pattern Hne) as (r & Hk & Hr).
  destruct (boyer_moore_search_correct text pattern Hne) as (r1 & Hb & Hr1).
  destruct (rabin_karp_search_correct text pattern Hne) as (r2 & Hrk & Hr2).
  rewrite (search_result_unique _ _ _ _ Hr1 Hr) in Hb.
  rewrite (search_result_unique _ _ _ _ Hr2 Hr) in Hrk.
  eauto.
Qed.

(** C1, at the failing input: with both the text and the pattern empty the
    three matchers give three different outcomes. [kmp_search] answers
    "not found", [boyer_moore_search] raises IndexError on [pattern[-1]],
    [rabin_karp_search] returns 0. *)
Theorem matchers_differ_on_empty_pattern :
  kmp_search [] [] = Done (-1) /\
  boyer_moore_search [] [] = Raise IndexError /\
  rabin_karp_search [] [] = Done 0.
Proof. split; [ | split ]; vm_compute; reflexivity. Qed.

(** C2: for every text and every non-empty pattern, each of [kmp_search],
    [boyer_moore_search] and [rabin_karp_search] returns the zero-based
    index of the first (lowest-index) occurrence of the pattern when there
    is one, and -1 when there is none. *)
Theorem matchers_find_first_occurrence (text pattern : str) :
  pattern <> [] ->
  exists r,
    kmp_search text pattern = Done r /\
    boyer_moore_search text pattern = Done r /\
    rabin_karp_search text pattern = Done r /\
    ((exists k, occurs_at text pattern k) ->
     occurs_at text pattern r /\ forall k, occurs_at text pattern k -> r <= k) /\
    ((forall k, ~ occurs_at text pattern k) -> r = -1).
Proof.
  intros Hne.
  destruct (matchers_agree_nonempty text pattern Hne) as (r & Hk & Hb & Hrk & Hr).
  exists r. split; [ done | ]. split; [ done | ]. split; [ done | ].
  destruct Hr as [ [Ho Hmin] | [-> Hno] ].
  - split; [ done | ]. intros Hnone. by destruct (Hnone r).
  - split; [ | done ]. intros [k Hk']. by destruct (Hno k).
Qed.

Lemma matchers_find_first_occurrence_witness :
  str_of "aa" <> [] /\
  exists r,
    kmp_search (str_of "aaaaaa") (str_of "aa") = Done r /\
    boyer_moore_search (str_of "aaaaaa") (str_of "aa") = Done r /\
    rabin_karp_search (str_of "aaaaaa") (str_of "aa") = Done r /\
    ((exists k, occurs_at (str_of "aaaaaa") (str_of "aa") k) ->
     occurs_at (str_of "aaaaaa") (str_of "aa") r /\
     forall k, occurs_at (str_of "aaaaaa") (str_of "aa") k -> r <= k) /\
    ((forall k, ~ occurs_at (str_of "aaaaaa") (str_of "aa") k) -> r = -1).
Proof.
  split; [ discriminate | ].
  apply (matchers_find_first_occurrence (str_of "aaaaaa") (str_of "aa")). discriminate.
Defined.

(** C3: whenever [rabin_karp_search] returns a non-negative index [i], the
    slice of the text of the pattern's length at [i] equals the pattern:
    a window is reported only after the direct comparison, so a hash
    collision never yields a false positive. *)
Theorem rabin_karp_no_false_positive (text pattern : str) (i : Z) :
  rabin_karp_search text pattern = Done i -> 0 <= i ->
  py_slice text i (i + len pattern) = pattern.
Proof.
  unfold rabin_karp_search. intros Hrun Hi.
  rewrite !polynomial_hash_value in Hrun by done. simpl in Hrun.
  destruct (py_pow3 rk_base (len pattern - 1) rk_modulus) as [ hm | | ];
    simpl in Hrun; try done.
  match type of Hrun with
  | context [ while ?c ?b ?f ?s0 ] => destruct (while c b f s0) as [ [ s' | r ] | | ] eqn:Hw
  end; simpl in Hrun; try done.
  - injection Hrun. lia.
  - injection Hrun as ->.
    apply while_return_reached in Hw as (s' & _ & _ & Hb).
    by apply rk_body_return in Hb as [_ Hb].
Qed.

Lemma rabin_karp_no_false_positive_witness :
  rabin_karp_search (str_of "ababcabcabababd") (str_of "ababd") = Done 10 /\ 0 <= 10 /\
  py_slice (str_of "ababcabcabababd") 10 (10 + len (str_of "ababd")) = str_of "ababd".
Proof.
  assert (rabin_karp_search (str_of "ababcabcabababd") (str_of "ababd") = Done 10) as Hrun
    by (vm_compute; reflexivity).
  assert (0 <= 10) as Hi by lia.
  split; [ exact Hrun | ]. split; [ exact Hi | ].
  exact (rabin_karp_no_false_positive _ _ 10 Hrun Hi).
Defined.

(** A window whose hash collides with the pattern's (198 = 97 mod 101) is
    compared and rejected. *)
Example rabin_karp_collision_rejected :
  polynomial_hash [198] rk_base rk_modulus = polynomial_hash [97] rk_base rk_modulus /\
  rabin_karp_search [198] [97] = Done (-1).
Proof. split; vm_compute; reflexivity. Qed.

(** C4: for every pattern of length [m], [compute_lps] returns a table of
    exactly [m] integers; entry [i] is the length of the longest proper
    prefix of [pattern[0..i]] that is also a suffix of it, and lies between
    0 and [i]; the table of the empty pattern is empty. *)
Theorem compute_lps_table (pattern : str) :
  exists lps,
    compute_lps pattern = Done lps /\
    len lps = len pattern /\
    (forall i, 0 <= i < len pattern ->
       exists v, py_get lps i = Done v /\ 0 <= v <= i /\
                 longest_prefix_suffix (py_slice pattern 0 (i + 1)) v) /\
    (pattern = [] -> lps = []).
Proof.
  destruct (compute_lps_correct pattern) as (lps & Hrun & Hlen & Hpi).
  exists lps. split; [ done | ]. split; [ done | ]. split.
  - intros i Hi. exists lps.[i]. split; [ apply py_get_Done; lia | ].
    pose proof (Hpi i Hi) as Hv. split.
    + destruct Hv as (Hlt & [Hv0 _] & _). lia.
    + apply is_pi_longest_prefix_suffix; [ lia | done ].
  - intros ->. apply len_zero_nil. by rewrite Hlen.
Qed.

(** C5: for a non-empty pattern of length [m], the table of
    [build_shift_table] maps a symbol that occurs before the final
    position to the distance from its last such occurrence to the pattern
    end; the last symbol of the pattern is mapped to [m] unless it occurs
    earlier; a symbol that is not in the pattern has no entry, and
    [boyer_moore_search] then shifts the window by [m]. *)
Theorem build_shift_table_entries (pattern : str) :
  pattern <> [] ->
  let m := len pattern in
  exists table,
    build_shift_table pattern = Done table /\
    (forall c i, last_index_before pattern (m - 1) c i ->
       table !! c = Some (m - 1 - i)) /\
    ((forall k, 0 <= k < m - 1 -> pattern.[k] <> pattern.[m - 1]) ->
     table !! pattern.[m - 1] = Some m) /\
    (forall c, (forall k, 0 <= k < m -> pattern.[k] <> c) ->
       table !! c = None /\ dict_get table c m = m) /\
    (forall text i, 0 <= i -> i + m <= len text ->
       table !! text.[i + m - 1] = None ->
       bm_body text pattern table i = Done (inl (i + m))).
Proof.
  intros Hne m. pose proof (len_pos pattern Hne) as Hm. fold m in Hm.
  destruct (build_shift_table_correct pattern Hne) as (table & Hrun & Hspec).
  exists table. split; [ done | ]. unfold shift_table_spec in Hspec. fold m in Hspec.
  split; [ | split; [ | split ] ].
  - intros c i (Hi & Hic & Hlast). specialize (Hspec c).
    destruct (table !! c) as [v | ].
    + destruct Hspec as [ (i' & (Hi' & Hic' & Hlast') & ->) | (Hno & _) ].
      * f_equal. destruct (Z.lt_trichotomy i i') as [Hlt | [-> | Hgt] ]; [ | lia | ].
        -- by destruct (Hlast i' ltac:(lia)).
        -- by destruct (Hlast' i ltac:(lia)).
      * by destruct (Hno i Hi).
    + by destruct (Hspec i ltac:(lia)).
  - intros Hno. specialize (Hspec pattern.[m - 1]).
    destruct (table !! pattern.[m - 1]) as [v | ].
    + destruct Hspec as [ (i' & (Hi' & Hic' & _) & _) | (_ & _ & ->) ]; [ | done ].
      by destruct (Hno i' Hi').
    + by destruct (Hspec (m - 1) ltac:(lia)).
  - intros c Hno. specialize (Hspec c). unfold dict_get.
    destruct (table !! c) as [v | ]; [ | done ].
    destruct Hspec as [ (i' & (Hi' & Hic' & _) & _) | (_ & -> & _) ].
    + by destruct (Hno i' ltac:(lia)).
    + by destruct (Hno (m - 1) ltac:(lia)).
  - intros text i Hi HiN Habs. unfold bm_body.
    destruct (bm_compare_correct text pattern Hne i Hi HiN)
      as (j & -> & Hj & Hsuf & Hmis). simpl.
    pose proof (Hspec text.[i + m - 1]) as Hc. rewrite Habs in Hc.
    destruct (Z.ltb_spec j 0) as [Hj0 | Hj0].
    + destruct (Hc (m - 1) ltac:(lia)). rewrite <- Hsuf by (fold m; lia).
      f_equal. lia.
    + fold m. rewrite (py_get_Done text) by lia. simpl.
      unfold dict_get. by rewrite Habs.
Qed.

Lemma build_shift_table_entries_witness :
  str_of "ababd" <> [] /\
  exists table,
    build_shift_table (str_of "ababd") = Done table /\
    (forall c i, last_index_before (str_of "ababd") (5 - 1) c i ->
       table !! c = Some (5 - 1 - i)) /\
    ((forall k, 0 <= k < 5 - 1 -> (str_of "ababd").[k] <> (str_of "ababd").[5 - 1]) ->
     table !! (str_of "ababd").[5 - 1] = Some 5) /\
    (forall c, (forall k, 0 <= k < 5 -> (str_of "ababd").[k] <> c) ->
       table !! c = None /\ dict_get table c 5 = 5) /\
    (forall text i, 0 <= i -> i + 5 <= len text ->
       table !! text.[i + 5 - 1] = None ->
       bm_body text (str_of "ababd") table i = Done (inl (i + 5))).
Proof.
  split; [ discriminate | ].
  apply (build_shift_table_entries (str_of "ababd")). discriminate.
Defined.

(** The hash carried by the loop of [rabin_karp_search] on a non-empty
    pattern is that of the window, at every window position. *)
Lemma rk_loop_state_hash (text pattern : str) (st : Z * Z) :
  pattern <> [] -> rk_loop_state text pattern st ->
  0 <= st.1 /\
  (st.1 + len pattern <= len text ->
   st.2 = poly rk_base (py_slice text st.1 (st.1 + len pattern)) mod rk_modulus).
Proof.
  intros Hne (sh & h0 & hm & Hsh & Hh0 & Hhm & Hr).
  pose proof (len_pos pattern Hne) as Hm.
  rewrite polynomial_hash_value in Hsh, Hh0 by done.
  rewrite py_pow3_nonneg in Hhm by (done || lia).
  injection Hh0 as <-. injection Hhm as <-.
  induction Hr as [ | [i h] s' Hr [Hi Hh] Hc Hb ]; simpl.
  - split; [ done | ]. by intros _.
  - unfold rk_cond in Hc. simpl in Hc, Hi, Hh.
    assert (i + len pattern <= len text) as HiN by (injection Hc; lia).
    destruct (rk_body_roll text pattern Hne sh i h Hi HiN (Hh HiN))
      as [ [Hb' _] | (h' & Hb' & _ & Hh') ].
    + congruence.
    + rewrite Hb' in Hb. injection Hb as <-. simpl. split; [ lia | done ].
Qed.

(** C6: in [rabin_karp_search], for a non-empty pattern no longer than the
    text, at each window position [i] that the loop reaches
    [current_slice_hash] equals [polynomial_hash] (base 256, modulus 101)
    of the window of the text at [i] and lies in [0, modulus); and the
    incremental update turns the hash of one window into the hash of the
    next. *)
Theorem rolling_hash_invariant (text pattern : str) :
  pattern <> [] -> len pattern <= len text ->
  (forall i h, rk_loop_state text pattern (i, h) ->
     i <= len text - len pattern ->
     0 <= i /\
     polynomial_hash (py_slice text i (i + len pattern)) rk_base rk_modulus = Done h /\
     0 <= h < rk_modulus) /\
  (forall sh hm i h,
     py_pow3 rk_base (len pattern - 1) rk_modulus = Done hm ->
     0 <= i < len text - len pattern ->
     polynomial_hash (py_slice text i (i + len pattern)) rk_base rk_modulus = Done h ->
     rk_body text pattern rk_base rk_modulus sh hm (i, h) = Done (inr i) \/
     exists h',
       rk_body text pattern rk_base rk_modulus sh hm (i, h) = Done (inl (i + 1, h')) /\
       polynomial_hash (py_slice text (i + 1) (i + 1 + len pattern)) rk_base rk_modulus
         = Done h' /\
       0 <= h' < rk_modulus).
Proof.
  intros Hne Hlen. pose proof (len_pos pattern Hne) as Hm. split.
  - intros i h Hst Hi.
    destruct (rk_loop_state_hash text pattern (i, h) Hne Hst) as [Hi0 Hh].
    simpl in *. split; [ done | ]. rewrite polynomial_hash_value by done.
    rewrite Hh by lia. split; [ done | ]. by apply Z.mod_pos_bound.
  - intros sh hm i h Hhm Hi Hh.
    rewrite py_pow3_nonneg in Hhm by (done || lia). injection Hhm as <-.
    rewrite polynomial_hash_value in Hh by done. injection Hh as Hh.
    destruct (rk_body_roll text pattern Hne sh i h ltac:(lia) ltac:(lia)
                (eq_sym Hh)) as [ [Hb _] | (h' & Hb & _ & Hh') ].
    + by left.
    + right. exists h'. split; [ done | ].
      rewrite polynomial_hash_value by done. rewrite Hh' by lia.
      split; [ done | ]. by apply Z.mod_pos_bound.
Qed.

Lemma rolling_hash_invariant_witness :
  str_of "bc" <> [] /\ len (str_of "bc") <= len (str_of "abc") /\
  (forall i h, rk_loop_state (str_of "abc") (str_of "bc") (i, h) ->
     i <= len (str_of "abc") - len (str_of "bc") ->
     0 <= i /\
     polynomial_hash (py_slice (str_of "abc") i (i + len (str_of "bc"))) rk_base rk_modulus
       = Done h /\
     0 <= h < rk_modulus) /\
  (forall sh hm i h,
     py_pow3 rk_base (len (str_of "bc") - 1) rk_modulus = Done hm ->
     0 <= i < len (str_of "abc") - len (str_of "bc") ->
     polynomial_hash (py_slice (str_of "abc") i (i + len (str_of "bc"))) rk_base rk_modulus
       = Done h ->
     rk_body (str_of "abc") (str_of "bc") rk_base rk_modulus sh hm (i, h) = Done (inr i) \/
     exists h',
       rk_body (str_of "abc") (str_of "bc") rk_base rk_modulus sh hm (i, h)
         = Done (inl (i + 1, h')) /\
       polynomial_hash (py_slice (str_of "abc") (i + 1) (i + 1 + len (str_of "bc")))
         rk_base rk_modulus = Done h' /\
       0 <= h' < rk_modulus).
Proof.
  assert (str_of "bc" <> []) as Hne by discriminate.
  assert (len (str_of "bc") <= len (str_of "abc")) as Hlen by (vm_compute; discriminate).
  split; [ exact Hne | ]. split; [ exact Hlen | ].
  exact (rolling_hash_invariant (str_of "abc") (str_of "bc") Hne Hlen).
Defined.

(** The loop of [rabin_karp_search] on "abc" / "bc" does reach the second
    window, with the hash the invariant gives. *)
Example rk_loop_state_second_window :
  rk_loop_state (str_of "abc") (str_of "bc") (1, 38) /\
  polynomial_hash (str_of "bc") rk_base rk_modulus = Done 38.
Proof.
  split; [ | vm_compute; reflexivity ].
  exists 38, 84, 54.
  split; [ vm_compute; reflexivity | ].
  split; [ vm_compute; reflexivity | ].
  split; [ vm_compute; reflexivity | ].
  eapply reaches_next; [ apply reaches_start | vm_compute; reflexivity .. ].
Qed.

(** C7, as the specification states it, fails for [kmp_search]: on the
    text "a" and the longer pattern "ab" the scan loop is entered (once)
    before the sentinel is returned. *)
Lemma kmp_scans_text_shorter_than_pattern :
  len (str_of "a") < len (str_of "ab") /\
  kmp_search (str_of "a") (str_of "ab") = Done (-1) /\
  kmp_iterations (str_of "a") (str_of "ab") = 1%nat /\
  kmp_iterations (str_of "a") (str_of "ab") <> 0%nat.
Proof.
  split; [ vm_compute; reflexivity | ].
  split; [ vm_compute; reflexivity | ].
  split; [ vm_compute; reflexivity | vm_compute; discriminate ].
Qed.

(** C7, amended: for a pattern longer than the text all three matchers
    return -1 without error; [boyer_moore_search] and [rabin_karp_search]
    do so without entering their scan loop, whereas [kmp_search] still
    enters its scan loop whenever the text is non-empty. *)
Theorem pattern_longer_than_text (text pattern : str) :
  len text < len pattern ->
  kmp_search text pattern = Done (-1) /\
  boyer_moore_search text pattern = Done (-1) /\
  rabin_karp_search text pattern = Done (-1) /\
  bm_iterations text pattern = 0%nat /\
  rk_iterations text pattern = 0%nat /\
  (text <> [] -> (0 < kmp_iterations text pattern)%nat).
Proof.
  intros Hlen. pose proof (len_nonneg text) as HN.
  assert (pattern <> []) as Hne by (intros ->; rewrite (@len_nil Z) in Hlen; lia).
  destruct (matchers_agree_nonempty text pattern Hne)
    as (r & Hk & Hb & Hrk & [ [ (Hr0 & HrN & _) _ ] | [-> _] ]); [ lia | ].
  split; [ done | ]. split; [ done | ]. split; [ done | ].
  split; [ | split ].
  - unfold bm_iterations.
    destruct (build_shift_table pattern); [ | done | done ].
    apply iterations_zero. unfold bm_cond. f_equal. lia.
  - unfold rk_iterations.
    destruct (polynomial_hash pattern _ _); [ | done | done ].
    destruct (polynomial_hash (py_slice _ _ _) _ _); [ | done | done ].
    destruct (py_pow3 _ _ _); [ | done | done ].
    apply iterations_zero. unfold rk_cond. simpl. f_equal. lia.
  - intros Htext. apply len_pos in Htext. unfold kmp_iterations.
    destruct (compute_lps_correct pattern) as (lps & -> & _).
    replace (2 * length text + 1)%nat with (S (2 * length text)) by lia.
    apply iterations_pos. unfold kmp_cond. simpl. f_equal. lia.
Qed.

Lemma pattern_longer_than_text_witness :
  len (str_of "a") < len (str_of "ab") /\
  kmp_search (str_of "a") (str_of "ab") = Done (-1) /\
  boyer_moore_search (str_of "a") (str_of "ab") = Done (-1) /\
  rabin_karp_search (str_of "a") (str_of "ab") = Done (-1) /\
  bm_iterations (str_of "a") (str_of "ab") = 0%nat /\
  rk_iterations (str_of "a") (str_of "ab") = 0%nat /\
  (str_of "a" <> [] -> (0 < kmp_iterations (str_of "a") (str_of "ab"))%nat).
Proof.
  assert (len (str_of "a") < len (str_of "ab")) as Hlen by (vm_compute; reflexivity).
  split; [ exact Hlen | ].
  exact (pattern_longer_than_text (str_of "a") (str_of "ab") Hlen).
Defined.

(** With an empty pattern [kmp_search] raises IndexError on [pattern[0]] as
    soon as the text is non-empty, and [boyer_moore_search] raises it on
    [pattern[-1]] for every text. *)
Lemma kmp_search_empty_pattern (text : str) :
  text <> [] -> kmp_search text [] = Raise IndexError.
Proof.
  intros Hne. apply len_pos in Hne. unfold kmp_search, kmp_search_fuel.
  replace (2 * length text + 1)%nat with (S (2 * length text)) by lia.
  change (compute_lps []) with (Done (@nil Z)). simpl.
  by replace (0 <? len text) with true by lia.
Qed.

Lemma boyer_moore_search_empty_pattern (text : str) :
  boyer_moore_search text [] = Raise IndexError.
Proof. done. Qed.

(** C8, at the failing input: on the text "abc" and the empty pattern
    [kmp_search] and [boyer_moore_search] raise IndexError; only
    [rabin_karp_search] returns 0. *)
Theorem empty_pattern_on_abc :
  kmp_search (str_of "abc") [] = Raise IndexError /\
  boyer_moore_search (str_of "abc") [] = Raise IndexError /\
  rabin_karp_search (str_of "abc") [] = Done 0.
Proof.
  split; [ by apply kmp_search_empty_pattern | ].
  split; [ apply boyer_moore_search_empty_pattern | vm_compute; reflexivity ].
Qed.

(** C9: for every text and every non-empty pattern the scan loop of
    [kmp_search] ends, within [2 * len text + 1] evaluations of its test;
    each round strictly decreases the measure [2 * (N - i) + j], which
    stays non-negative; the text cursor [i] never moves backward, and a
    round that does not advance it (the fallback [j = lps[j - 1]])
    strictly decreases [j]. The loop of [compute_lps] ends for every
    pattern, each round decreasing [2 * (M - i) + length]. *)
Theorem kmp_loops_terminate (text pattern : str) :
  pattern <> [] ->
  (exists r, forall fuel, (2 * length text + 1 <= fuel)%nat ->
     kmp_search_fuel fuel text pattern = Done r) /\
  (forall lps st st',
     compute_lps pattern = Done lps ->
     reaches (kmp_cond text) (kmp_body text pattern lps) (0, 0) st ->
     kmp_cond text st = Done true ->
     kmp_body text pattern lps st = Done (inl st') ->
     0 <= kmp_measure text st' < kmp_measure text st /\
     st.1 <= st'.1 /\
     (st'.1 = st.1 -> 0 <= st'.2 < st.2)) /\
  (forall p, exists lps, forall fuel, (2 * length p + 1 <= fuel)%nat ->
     compute_lps_fuel fuel p = Done lps) /\
  (forall p st st',
     reaches (compute_lps_cond p) (compute_lps_body p) (compute_lps_init p) st ->
     compute_lps_cond p st = Done true ->
     compute_lps_body p st = Done (inl st') ->
     0 <= lps_measure p st' < lps_measure p st /\ st_i st <= st_i st').
Proof.
  intros Hne. split; [ | split; [ | split ] ].
  - destruct (kmp_search_correct text pattern Hne) as (r & Hr & _).
    exists r. intros fuel Hfuel.
    unfold kmp_search in Hr. unfold kmp_search_fuel in *.
    destruct (compute_lps pattern) as [ lps | | ]; [ | done | done ].
    by apply (while_then_fuel_mono _ _ _ (2 * length text + 1) fuel).
  - intros lps st st' Hlps Hreach Hc Hb.
    destruct (compute_lps_correct pattern) as (lps' & Hlps' & Hlen & Hpi).
    assert (lps' = lps) as -> by congruence.
    assert (kmp_inv text pattern st) as HI.
    { apply (reaches_invariant (kmp_cond text) (kmp_body text pattern lps)
               (kmp_inv text pattern)
               (fun r => occurs_at text pattern r /\
                         forall k, occurs_at text pattern k -> r <= k)
               (kmp_measure text)) with (s0 := (0, 0)); [ | | done ].
      - intros s0 HI0 Hc0.
        destruct (kmp_body_step text pattern lps Hlen Hpi s0 HI0 Hc0)
          as [ (s1 & Hb1 & HI1 & Hm1 & _) | (r & Hb1 & HP) ]; eauto.
      - by apply kmp_inv_init. }
    destruct (kmp_body_step text pattern lps Hlen Hpi st HI Hc)
      as [ (s1 & Hb1 & HI1 & Hm1 & Hmono & Hfall) | (r & Hb1 & _) ]; [ | congruence ].
    assert (s1 = st') as -> by congruence.
    destruct st' as [i' j']. destruct HI1 as (Hj' & Hi' & _).
    unfold kmp_measure in *. simpl in *. lia.
  - intros p. destruct (compute_lps_correct p) as (lps & Hr & _).
    exists lps. intros fuel Hfuel.
    unfold compute_lps in Hr. unfold compute_lps_fuel in *.
    by apply (while_then_fuel_mono _ _ _ (2 * length p + 1) fuel).
  - intros p st st' Hreach Hc Hb.
    destruct (decide (p = [])) as [-> | Hp].
    + exfalso. clear Hb. induction Hreach as [ | s0 s1 Hr IH Hc0 Hb0 ].
      * discriminate Hc.
      * apply IH. done.
    + assert (lps_inv p st) as HI.
      { apply (reaches_invariant (compute_lps_cond p) (compute_lps_body p)
                 (lps_inv p) (fun _ => False) (lps_measure p))
          with (s0 := compute_lps_init p); [ | by apply lps_inv_init | done ].
        intros s0 HI0 Hc0. left.
        destruct (lps_body_step p s0 HI0 Hc0) as (s1 & Hb1 & HI1 & Hm1 & _). eauto. }
      destruct (lps_body_step p st HI Hc) as (s1 & Hb1 & HI1 & Hm1 & Hmono).
      assert (s1 = st') as -> by congruence.
      destruct st' as [lps' length' i']. destruct HI1 as (_ & Hi' & Hl' & _).
      unfold lps_measure in *. simpl in *. lia.
Qed.

Lemma kmp_loops_terminate_witness :
  str_of "ababd" <> [] /\
  (exists r, forall fuel, (2 * length (str_of "ababcabcabababd") + 1 <= fuel)%nat ->
     kmp_search_fuel fuel (str_of "ababcabcabababd") (str_of "ababd") = Done r).
Proof.
  assert (str_of "ababd" <> []) as Hne by discriminate.
  split; [ exact Hne | ].
  exact (proj1 (kmp_loops_terminate (str_of "ababcabcabababd") (str_of "ababd") Hne)).
Defined.

(** C10: for every text, the empty one included, [rabin_karp_search] with
    the empty pattern returns 0 without error: the pattern hash and the
    hash of the empty initial window are both 0, [pow(base, -1, modulus)]
    is the modular inverse 58 of 256 modulo 101, and the first round's
    comparison of the empty slices succeeds. *)
Theorem rabin_karp_empty_pattern (text : str) :
  rabin_karp_search text [] = Done 0 /\
  polynomial_hash [] rk_base rk_modulus = Done 0 /\
  polynomial_hash (py_slice text 0 (len (@nil Z))) rk_base rk_modulus = Done 0 /\
  py_pow3 rk_base (len (@nil Z) - 1) rk_modulus = Done 58 /\
  (rk_base * 58) mod rk_modulus = 1 /\
  rk_cond text [] (0, 0) = Done true /\
  rk_body text [] rk_base rk_modulus 0 58 (0, 0) = Done (inr 0).
Proof.
  pose proof (len_nonneg text) as HN.
  assert (py_slice text 0 0 = []) as Hslice.
  { unfold py_slice. rewrite Z.sub_diag. apply take_0. }
  assert (rk_cond text [] (0, 0) = Done true) as Hc.
  { unfold rk_cond. simpl. rewrite (@len_nil Z). f_equal. lia. }
  assert (rk_body text [] rk_base rk_modulus 0 58 (0, 0) = Done (inr 0)) as Hb.
  { unfold rk_body. rewrite (@len_nil Z). change (0 + 0) with 0.
    by rewrite Hslice. }
  assert (py_pow3 rk_base (0 - 1) rk_modulus = Done 58) as Hpow
    by (vm_compute; reflexivity).
  assert (polynomial_hash [] rk_base rk_modulus = Done 0) as Hhash by reflexivity.
  rewrite (@len_nil Z) in *. rewrite Hslice.
  split; [ | done ].
  unfold rabin_karp_search. rewrite (@len_nil Z), Hslice, Hhash, Hpow.
  replace (Z.to_nat (len text - 0 + 1) + 1)%nat
    with (S (Z.to_nat (len text - 0 + 1))) by lia.
  change ((x ← while (rk_cond text []) (rk_body text [] rk_base rk_modulus 0 58)
                 (S (Z.to_nat (len text - 0 + 1))) (0, 0);
           match x with inl _ => Done (-1) | inr r => Done r end) = Done 0).
  by rewrite (while_return_first _ _ _ _ 0 Hc Hb).
Qed.

(** ** The specification's scenarios *)

Example scenario_ababd :
  kmp_search (str_of "ababcabcabababd") (str_of "ababd") = Done 10 /\
  boyer_moore_search (str_of "ababcabcabababd") (str_of "ababd") = Done 10 /\
  rabin_karp_search (str_of "ababcabcabababd") (str_of "ababd") = Done 10.
Proof. split; [ | split ]; vm_compute; reflexivity. Qed.

Example scenario_absent :
  kmp_search (str_of "hello world") (str_of "xyz") = Done (-1) /\
  boyer_moore_search (str_of "hello world") (str_of "xyz") = Done (-1) /\
  rabin_karp_search (str_of "hello world") (str_of "xyz") = Done (-1).
Proof. split; [ | split ]; vm_compute; reflexivity. Qed.

Example scenario_repeated :
  kmp_search (str_of "aaaaaa") (str_of "aa") = Done 0 /\
  boyer_moore_search (str_of "aaaaaa") (str_of "aa") = Done 0 /\
  rabin_karp_search (str_of "aaaaaa") (str_of "aa") = Done 0.
Proof. split; [ | split ]; vm_compute; reflexivity. Qed.

Example scenario_whole_text :
  kmp_search (str_of "match") (str_of "match") = Done 0 /\
  boyer_moore_search (str_of "match") (str_of "match") = Done 0 /\
  rabin_karp_search (str_of "match") (str_of "match") = Done 0.
Proof. split; [ | split ]; vm_compute; reflexivity. Qed.

Example scenario_tables :
  compute_lps (str_of "ababcabab") = Done [0; 0; 1; 2; 0; 1; 2; 3; 4] /\
  (build_shift_table (str_of "ababd") ≫= fun t => Done (map_to_list t))
  = Done [(97, 2); (98, 1); (100, 5)].
Proof. split; vm_compute; reflexivity. Qed.

(** * Further properties of the matchers *)

(** ** The prefix table grows by at most one *)

Lemma is_pi_step (p : str) (n a b : Z) :
  0 <= n -> is_pi p n a -> is_pi p (n + 1) b -> b <= a + 1.
Proof.
  intros Hn (Ha & [Ha0 _] & Hamax) (Hb & Hbb & _).
  destruct (decide (b <= 0)) as [ | Hb0 ]; [ lia | ].
  replace b with (b - 1 + 1) in Hbb by lia.
  apply pborder_shrink in Hbb as [Hbb _]; [ | lia ].
  specialize (Hamax (b - 1) ltac:(lia) Hbb). lia.
Qed.

(** Consecutive entries of the table of [compute_lps]: an entry exceeds the
    one before it by at most one (the code raises [length] by one per
    entry written, at most). *)
Theorem compute_lps_growth (pattern : str) (lps : list Z) (i : Z) :
  compute_lps pattern = Done lps -> 0 <= i -> i + 1 < len pattern ->
  exists a b, py_get lps i = Done a /\ py_get lps (i + 1) = Done b /\ b <= a + 1.
Proof.
  intros Hrun Hi Hi1.
  destruct (compute_lps_correct pattern) as (lps' & Hrun' & Hlen & Hpi).
  assert (lps' = lps) as -> by congruence.
  exists lps.[i], lps.[i + 1].
  split; [ apply py_get_Done; lia | ]. split; [ apply py_get_Done; lia | ].
  apply (is_pi_step pattern (i + 1)); [ lia | apply Hpi; lia | apply Hpi; lia ].
Qed.

Lemma compute_lps_growth_witness :
  compute_lps (str_of "ababcabab") = Done [0; 0; 1; 2; 0; 1; 2; 3; 4] /\
  0 <= 6 /\ 6 + 1 < len (str_of "ababcabab") /\
  exists a b, py_get [0; 0; 1; 2; 0; 1; 2; 3; 4] 6 = Done a /\
              py_get [0; 0; 1; 2; 0; 1; 2; 3; 4] (6 + 1) = Done b /\ b <= a + 1.
Proof.
  assert (compute_lps (str_of "ababcabab") = Done [0; 0; 1; 2; 0; 1; 2; 3; 4]) as Hrun
    by (vm_compute; reflexivity).
  assert (0 <= 6) as Hi by lia.
  assert (6 + 1 < len (str_of "ababcabab")) as Hi1 by (vm_compute; reflexivity).
  split; [ exact Hrun | ]. split; [ exact Hi | ]. split; [ exact Hi1 | ].
  exact (compute_lps_growth _ _ 6 Hrun Hi Hi1).
Defined.

(** ** The empty pattern *)

Lemma kmp_search_empty_text_pattern : kmp_search [] [] = Done (-1).
Proof. vm_compute. reflexivity. Qed.

(** What the matchers whose code does not treat the empty pattern do with
    it: [build_shift_table] raises IndexError on [pattern[-1]], so
    [boyer_moore_search] raises for every text; [compute_lps] returns the
    empty table and [kmp_search] raises IndexError on [pattern[0]] for
    every non-empty text, and answers -1 for the empty text. *)
Theorem empty_pattern_outcomes (text : str) :
  build_shift_table [] = Raise IndexError /\
  boyer_moore_search text [] = Raise IndexError /\
  compute_lps [] = Done [] /\
  kmp_search text [] = if decide (text = []) then Done (-1) else Raise IndexError.
Proof.
  split; [ done | ]. split; [ apply boyer_moore_search_empty_pattern | ].
  split; [ done | ].
  destruct (decide (text = [])) as [-> | Hne].
  - apply kmp_search_empty_text_pattern.
  - by apply kmp_search_empty_pattern.
Qed.

(** ** Extending the text *)

Lemma occurs_at_app (text extra pattern : str) (k : Z) :
  k + len pattern <= len text ->
  occurs_at (text ++ extra) pattern k <-> occurs_at text pattern k.
Proof.
  intros Hk. rewrite !occurs_at_pointwise, len_app.
  pose proof (len_nonneg extra). split.
  - intros (Hk0 & _ & Hpt). split; [ done | ]. split; [ done | ].
    intros t Ht. rewrite <- Hpt by done. by rewrite ith_app_l by lia.
  - intros (Hk0 & _ & Hpt). split; [ done | ]. split; [ lia | ].
    intros t Ht. rewrite ith_app_l by lia. by apply Hpt.
Qed.

Lemma search_result_app (text extra pattern : str) (r : Z) :
  pattern <> [] -> 0 <= r ->
  search_result text pattern r -> search_result (text ++ extra) pattern r.
Proof.
  intros Hne Hr [ [Ho Hmin] | [-> _] ]; [ | lia ].
  pose proof (len_pos pattern Hne) as Hm. pose proof Ho as (_ & HrN & _).
  left. split; [ by apply occurs_at_app | ].
  intros k Hk. destruct (decide (r <= k)) as [ | Hlt ]; [ done | ].
  apply Hmin. apply (occurs_at_app text extra); [ lia | done ].
Qed.

(** A pattern found at [r] is found at the same [r], by all three
    matchers, in any text that extends the first one. *)
Theorem found_stable_under_extension (text extra pattern : str) (r : Z) :
  pattern <> [] -> kmp_search text pattern = Done r -> 0 <= r ->
  kmp_search (text ++ extra) pattern = Done r /\
  boyer_moore_search (text ++ extra) pattern = Done r /\
  rabin_karp_search (text ++ extra) pattern = Done r.
Proof.
  intros Hne Hrun Hr.
  destruct (matchers_agree_nonempty text pattern Hne) as (r0 & Hk & _ & _ & Hres).
  assert (r0 = r) as -> by congruence.
  destruct (matchers_agree_nonempty (text ++ extra) pattern Hne)
    as (r' & Hk' & Hb' & Hrk' & Hres').
  rewrite (search_result_unique _ _ _ _ Hres'
             (search_result_app text extra pattern r Hne Hr Hres)) in *.
  done.
Qed.

Lemma found_stable_under_extension_witness :
  str_of "aa" <> [] /\ kmp_search (str_of "baab") (str_of "aa") = Done 1 /\ 0 <= 1 /\
  kmp_search (str_of "baab" ++ str_of "aaa") (str_of "aa") = Done 1 /\
  boyer_moore_search (str_of "baab" ++ str_of "aaa") (str_of "aa") = Done 1 /\
  rabin_karp_search (str_of "baab" ++ str_of "aaa") (str_of "aa") = Done 1.
Proof.
  assert (str_of "aa" <> []) as Hne by discriminate.
  assert (kmp_search (str_of "baab") (str_of "aa") = Done 1) as Hrun
    by (vm_compute; reflexivity).
  assert (0 <= 1) as Hr by lia.
  split; [ exact Hne | ]. split; [ exact Hrun | ]. split; [ exact Hr | ].
  exact (found_stable_under_extension _ (str_of "aaa") _ 1 Hne Hrun Hr).
Defined.

(** ** The polynomial hash as a function of the string *)

(** For a positive modulus [polynomial_hash] returns a value in
    [0, modulus), and the hash of a string with one more symbol is obtained
    from the hash of the string: multiply by the base, add the symbol,
    reduce. *)
Theorem polynomial_hash_append (s : str) (c : char) (base modulus : Z) :
  0 < modulus ->
  exists h, polynomial_hash s base modulus = Done h /\ 0 <= h < modulus /\
            polynomial_hash (s ++ [c]) base modulus
            = Done ((h * base + ord c) mod modulus).
Proof.
  intros Hm. assert (modulus <> 0) as Hne by lia.
  exists (poly base s mod modulus).
  split; [ by apply polynomial_hash_value | ].
  split; [ by apply Z.mod_pos_bound | ].
  rewrite polynomial_hash_value by done. rewrite poly_snoc. unfold ord.
  f_equal. rewrite <- (Zplus_mod_idemp_l (poly base s mod modulus * base)).
  rewrite Z.mul_mod_idemp_l by done. by rewrite Zplus_mod_idemp_l.
Qed.

Lemma polynomial_hash_append_witness :
  0 < 101 /\
  exists h, polynomial_hash (str_of "ab") 256 101 = Done h /\ 0 <= h < 101 /\
            polynomial_hash (str_of "ab" ++ [99]) 256 101
            = Done ((h * 256 + ord 99) mod 101).
Proof.
  assert (0 < 101) as Hm by lia.
  split; [ exact Hm | ].
  exact (polynomial_hash_append (str_of "ab") 99 256 101 Hm).
Defined.

(** With modulus 0 [polynomial_hash] raises ZeroDivisionError at the first
    symbol; only the empty string, whose loop body never runs, is hashed
    (to 0). *)
Theorem polynomial_hash_zero_modulus (s : str) (base : Z) :
  polynomial_hash s base 0
  = if decide (s = []) then Done 0 else Raise ZeroDivisionError.
Proof.
  destruct s as [ | c s ]; [ done | ].
  unfold polynomial_hash, enumerate. rewrite len_cons.
  rewrite seqZ_cons by (pose proof (len_nonneg s); lia). done.
Qed.

Lemma poly_congruent (base modulus : Z) (s s' : list Z) :
  modulus <> 0 ->
  Forall2 (fun a b => a mod modulus = b mod modulus) s s' ->
  poly base s mod modulus = poly base s' mod modulus.
Proof.
  intros Hm Hall. induction Hall as [ | a b s s' Hab Hall IH ]; [ done | ].
  simpl. assert (len s = len s') as <-.
  { unfold len. by rewrite (Forall2_length _ _ _ Hall). }
  rewrite (Z.add_mod (a * _)), (Z.add_mod (b * _)) by done.
  rewrite IH. rewrite (Z.mul_mod a), (Z.mul_mod b) by done.
  by rewrite Hab.
Qed.

(** The hash only sees the symbols modulo the modulus: two strings whose
    symbols are congruent position by position have the same hash, so
    distinct strings collide. *)
Theorem polynomial_hash_congruent (s s' : str) (base modulus : Z) :
  modulus <> 0 ->
  Forall2 (fun a b => a mod modulus = b mod modulus) s s' ->
  polynomial_hash s base modulus = polynomial_hash s' base modulus.
Proof.
  intros Hm Hall. rewrite !polynomial_hash_value by done.
  f_equal. by apply poly_congruent.
Qed.

Lemma polynomial_hash_congruent_witness :
  101 <> 0 /\
  Forall2 (fun a b => a mod 101 = b mod 101) [97; 98] [198; 300] /\
  polynomial_hash [97; 98] 256 101 = polynomial_hash [198; 300] 256 101.
Proof.
  assert (101 <> 0) as Hm by lia.
  assert (Forall2 (fun a b => a mod 101 = b mod 101) [97; 98] [198; 300]) as Hall
    by (repeat constructor).
  split; [ exact Hm | ]. split; [ exact Hall | ].
  exact (polynomial_hash_congruent _ _ 256 101 Hm Hall).
Defined.

(** ** [rabin_karp_search] never raises *)

Lemma rabin_karp_search_nil (text : str) : rabin_karp_search text [] = Done 0.
Proof.
  assert (py_slice text 0 0 = []) as Hslice.
  { unfold py_slice. rewrite Z.sub_diag. apply take_0. }
  assert (rk_cond text [] (0, 0) = Done true) as Hc.
  { unfold rk_cond. simpl. rewrite (@len_nil Z).
    pose proof (len_nonneg text). f_equal. lia. }
  assert (rk_body text [] rk_base rk_modulus 0 58 (0, 0) = Done (inr 0)) as Hb.
  { unfold rk_body. rewrite (@len_nil Z). change (0 + 0) with 0.
    by rewrite Hslice. }
  assert (py_pow3 rk_base (0 - 1) rk_modulus = Done 58) as Hpow
    by (vm_compute; reflexivity).
  assert (polynomial_hash [] rk_base rk_modulus = Done 0) as Hhash by reflexivity.
  unfold rabin_karp_search. rewrite (@len_nil Z), Hslice, Hhash, Hpow.
  replace (Z.to_nat (len text - 0 + 1) + 1)%nat
    with (S (Z.to_nat (len text - 0 + 1))) by lia.
  change ((x ← while (rk_cond text []) (rk_body text [] rk_base rk_modulus 0 58)
                 (S (Z.to_nat (len text - 0 + 1))) (0, 0);
           match x with inl _ => Done (-1) | inr r => Done r end) = Done 0).
  by rewrite (while_return_first _ _ _ _ 0 Hc Hb).
Qed.

(** For every text and every pattern, the empty ones included,
    [rabin_karp_search] returns: it raises nothing, and its result is -1
    or the start of a window that lies inside the text. *)
Theorem rabin_karp_search_total (text pattern : str) :
  exists r, rabin_karp_search text pattern = Done r /\
            (r = -1 \/ 0 <= r /\ r + len pattern <= len text).
Proof.
  destruct (decide (pattern = [])) as [-> | Hne].
  - exists 0. split; [ apply rabin_karp_search_nil | ]. right.
    rewrite (@len_nil Z). pose proof (len_nonneg text). lia.
  - destruct (rabin_karp_search_correct text pattern Hne)
      as (r & Hrun & [ [ (Hr0 & HrN & _) _ ] | [-> _] ]).
    + exists r. split; [ done | ]. right. done.
    + exists (-1). split; [ done | ]. by left.
Qed.

(** ** Progress of the Boyer-Moore scan *)

(** For every text and every non-empty pattern the outer loop of
    [boyer_moore_search] ends within [len text + 1] evaluations of its
    test, and each round that does not return moves the window start
    forward by at least one position and at most [len pattern], never
    beyond the end of the text. *)
Theorem boyer_moore_progress (text pattern : str) :
  pattern <> [] ->
  (exists r, forall fuel, (length text + 1 <= fuel)%nat ->
     boyer_moore_search_fuel fuel text pattern = Done r) /\
  (forall table i i',
     build_shift_table pattern = Done table ->
     reaches (bm_cond text pattern) (bm_body text pattern table) 0 i ->
     bm_cond text pattern i = Done true ->
     bm_body text pattern table i = Done (inl i') ->
     i < i' <= i + len pattern /\ i' <= len text).
Proof.
  intros Hne. split.
  - destruct (boyer_moore_search_correct text pattern Hne) as (r & Hr & _).
    exists r. intros fuel Hfuel.
    unfold boyer_moore_search in Hr. unfold boyer_moore_search_fuel in *.
    destruct (build_shift_table pattern) as [ table | | ]; [ | done | done ].
    by apply (while_then_fuel_mono _ _ _ (length text + 1) fuel).
  - intros table i i' Htable Hreach Hc Hb.
    destruct (build_shift_table_correct pattern Hne) as (table' & Htable' & Hspec).
    assert (table' = table) as -> by congruence.
    assert (bm_inv text pattern i) as HI.
    { apply (reaches_invariant (bm_cond text pattern) (bm_body text pattern table)
               (bm_inv text pattern)
               (fun r => occurs_at text pattern r /\
                         forall k, occurs_at text pattern k -> r <= k)
               (bm_measure text)) with (s0 := 0); [ | | done ].
      - intros i0 HI0 Hc0. unfold bm_measure.
        destruct (bm_body_step text pattern table Hne Hspec i0 HI0 Hc0)
          as [ (i1 & Hb1 & HI1 & Hlt) | (r & Hb1 & HP) ].
        + left. exists i1. split; [ done | ]. split; [ done | lia ].
        + right. eauto.
      - split; [ pose proof (len_nonneg text); lia | ]. by intros k (Hk & _). }
    destruct (bm_body_step text pattern table Hne Hspec i HI Hc)
      as [ (i1 & Hb1 & [Hi1 _] & Hlt) | (r & Hb1 & _) ]; [ | congruence ].
    assert (i1 = i') as -> by congruence. lia.
Qed.

Lemma boyer_moore_progress_witness :
  str_of "ababd" <> [] /\
  exists r, forall fuel, (length (str_of "ababcabcabababd") + 1 <= fuel)%nat ->
    boyer_moore_search_fuel fuel (str_of "ababcabcabababd") (str_of "ababd") = Done r.
Proof.
  assert (str_of "ababd" <> []) as Hne by discriminate.
  split; [ exact Hne | ].
  exact (proj1 (boyer_moore_progress (str_of "ababcabcabababd") (str_of "ababd") Hne)).
Defined.

(** ** The entries of the shift table *)

Lemma elem_of_ith (l : list Z) (c : Z) :
  c ∈ l <-> exists k, 0 <= k < len l /\ l.[k] = c.
Proof.
  rewrite list_elem_of_lookup. split.
  - intros [n Hn]. exists (Z.of_nat n).
    pose proof (lookup_lt_Some _ _ _ Hn). split; [ unfold len; lia | ].
    unfold ith. by rewrite Nat2Z.id, Hn.
  - intros (k & Hk & <-). exists (Z.to_nat k). by apply lookup_ith.
Qed.

(** The table of a non-empty pattern of length [m] has an entry exactly
    for the symbols of the pattern, and every entry is a shift between 1
    and [m]: a lookup never yields a shift that would stall the scan or
    jump by more than the pattern length. *)
Theorem build_shift_table_range (pattern : str) :
  pattern <> [] ->
  exists table,
    build_shift_table pattern = Done table /\
    (forall c, is_Some (table !! c) <-> c ∈ pattern) /\
    (forall c v, table !! c = Some v -> 1 <= v <= len pattern).
Proof.
  intros Hne. pose proof (len_pos pattern Hne) as Hm.
  destruct (build_shift_table_correct pattern Hne) as (table & Hrun & Hspec).
  exists table. split; [ done | ]. unfold shift_table_spec in Hspec. split.
  - intros c. rewrite elem_of_ith. specialize (Hspec c). split.
    + intros [v Hv]. rewrite Hv in Hspec.
      destruct Hspec as [ (i & (Hi & Hic & _) & _) | (_ & -> & _) ].
      * exists i. split; [ lia | done ].
      * exists (len pattern - 1). split; [ lia | done ].
    + intros (k & Hk & Hkc). destruct (table !! c) as [v | ]; [ by eexists | ].
      by destruct (Hspec k Hk).
  - intros c v Hv. specialize (Hspec c). rewrite Hv in Hspec.
    destruct Hspec as [ (i & (Hi & _) & ->) | (_ & _ & ->) ]; lia.
Qed.

Lemma build_shift_table_range_witness :
  str_of "ababd" <> [] /\
  exists table,
    build_shift_table (str_of "ababd") = Done table /\
    (forall c, is_Some (table !! c) <-> c ∈ str_of "ababd") /\
    (forall c v, table !! c = Some v -> 1 <= v <= len (str_of "ababd")).
Proof.
  assert (str_of "ababd" <> []) as Hne by discriminate.
  split; [ exact Hne | ].
  exact (build_shift_table_range (str_of "ababd") Hne).
Defined.

(** ** How many rounds the scans take *)

Section WhileBound.
Context {St R : Type}.
Variable cond : St -> exec bool.
Variable body : St -> exec (St + R).
Variable Inv : St -> Prop.
Variable Post : R -> Prop.
Variable measure : St -> Z.

Hypothesis cond_measure : forall s, Inv s -> cond s = Done true -> 1 <= measure s.
Hypothesis body_step : forall s, Inv s -> cond s = Done true ->
  (exists s', body s = Done (inl s') /\ Inv s' /\ measure s' < measure s) \/
  (exists r, body s = Done (inr r) /\ Post r).

(** A loop whose measure is positive whenever its test holds is entered
    at most as often as the measure of its first state. *)
Lemma iterations_bound (fuel : nat) (s : St) :
  Inv s -> Z.of_nat (iterations cond body fuel s) <= Z.max 0 (measure s).
Proof.
  revert s. induction fuel as [ | fuel IH ]; intros s HI; simpl; [ lia | ].
  destruct (cond s) as [ [ | ] | | ] eqn:Hc; try lia.
  pose proof (cond_measure s HI Hc) as Hpos.
  destruct (body_step s HI Hc) as [ (s' & Hb & HI' & Hlt) | (r & Hb & _) ];
    rewrite Hb.
  - specialize (IH s' HI'). lia.
  - lia.
Qed.
End WhileBound.

(** On a non-empty pattern the scan loop of [kmp_search] is entered at
    most [2 * len text] times, whatever the pattern is: the scan is linear
    in the text. *)
Theorem kmp_iterations_linear (text pattern : str) :
  pattern <> [] -> (kmp_iterations text pattern <= 2 * length text)%nat.
Proof.
  intros Hne. unfold kmp_iterations.
  destruct (compute_lps_correct pattern) as (lps & -> & Hlen & Hpi).
  assert (Z.of_nat (iterations (kmp_cond text) (kmp_body text pattern lps)
                      (2 * length text + 1) (0, 0))
          <= Z.max 0 (kmp_measure text (0, 0))) as Hbound.
  { apply (iterations_bound (kmp_cond text) (kmp_body text pattern lps)
             (kmp_inv text pattern)
             (fun r => occurs_at text pattern r /\
                       forall k, occurs_at text pattern k -> r <= k)).
    - intros [i j] (Hj & _) Hc. unfold kmp_cond in Hc. unfold kmp_measure.
      simpl in *. injection Hc. lia.
    - intros s0 HI0 Hc0.
      destruct (kmp_body_step text pattern lps Hlen Hpi s0 HI0 Hc0)
        as [ (s1 & Hb1 & HI1 & Hm1 & _) | (r & Hb1 & HP) ]; eauto.
    - by apply kmp_inv_init. }
  change (kmp_measure text (0, 0)) with (2 * (len text - 0) + 0) in Hbound.
  unfold len in Hbound. lia.
Qed.

Lemma kmp_iterations_linear_witness :
  str_of "aab" <> [] /\
  (kmp_iterations (str_of "aaaaaaaa") (str_of "aab") <= 2 * length (str_of "aaaaaaaa"))%nat.
Proof.
  assert (str_of "aab" <> []) as Hne by discriminate.
  split; [ exact Hne | ].
  exact (kmp_iterations_linear (str_of "aaaaaaaa") (str_of "aab") Hne).
Defined.

(** On a non-empty pattern [boyer_moore_search] and [rabin_karp_search]
    enter their scan loop at most once per window of the text, that is at
    most [len text - len pattern + 1] times (never, when the pattern is
    the longer one). *)
Theorem window_scans_bounded (text pattern : str) :
  pattern <> [] ->
  Z.of_nat (bm_iterations text pattern) <= Z.max 0 (len text - len pattern + 1) /\
  Z.of_nat (rk_iterations text pattern) <= Z.max 0 (len text - len pattern + 1).
Proof.
  intros Hne. pose proof (len_pos pattern Hne) as Hm. split.
  - unfold bm_iterations.
    destruct (build_shift_table_correct pattern Hne) as (table & -> & Hspec).
    replace (len text - len pattern + 1) with (len text - len pattern + 1 - 0) by lia.
    apply (iterations_bound (bm_cond text pattern) (bm_body text pattern table)
             (bm_inv text pattern)
             (fun r => occurs_at text pattern r /\
                       forall k, occurs_at text pattern k -> r <= k)
             (fun i => len text - len pattern + 1 - i)).
    + intros i _ Hc. unfold bm_cond in Hc. injection Hc. lia.
    + intros i HI Hc.
      destruct (bm_body_step text pattern table Hne Hspec i HI Hc)
        as [ (i1 & Hb1 & HI1 & Hlt) | (r & Hb1 & HP) ].
      * left. exists i1. split; [ done | ]. split; [ done | lia ].
      * right. eauto.
    + split; [ pose proof (len_nonneg text); lia | ]. by intros k (Hk & _).
  - unfold rk_iterations.
    rewrite !polynomial_hash_value by done.
    rewrite py_pow3_nonneg by (done || lia).
    replace (len text - len pattern + 1) with (len text - len pattern + 1 - 0) at 2
      by lia.
    apply (iterations_bound (rk_cond text pattern) _
             (rk_inv text pattern)
             (fun r => occurs_at text pattern r /\
                       forall k, occurs_at text pattern k -> r <= k)
             (fun s => len text - len pattern + 1 - s.1)).
    + intros s _ Hc. unfold rk_cond in Hc. injection Hc. lia.
    + intros s HI Hc.
      destruct (rk_body_step text pattern Hne s HI Hc)
        as [ (h' & Hb & HI') | (r & Hb & HP) ].
      * left. eexists. split; [ done | ]. split; [ done | simpl; lia ].
      * right. eauto.
    + split; [ done | ]. split; [ done | ]. by intros k (Hk & _).
Qed.

Lemma window_scans_bounded_witness :
  str_of "ab" <> [] /\
  Z.of_nat (bm_iterations (str_of "aaaaab") (str_of "ab"))
    <= Z.max 0 (len (str_of "aaaaab") - len (str_of "ab") + 1) /\
  Z.of_nat (rk_iterations (str_of "aaaaab") (str_of "ab"))
    <= Z.max 0 (len (str_of "aaaaab") - len (str_of "ab") + 1).
Proof.
  assert (str_of "ab" <> []) as Hne by discriminate.
  split; [ exact Hne | ].
  exact (window_scans_bounded (str_of "aaaaab") (str_of "ab") Hne).
Defined.

(** * The hash table *)

Lemma py_get_lookup {A : Type} (l : list A) (k : Z) (x : A) :
  0 <= k < len l -> l !! Z.to_nat k = Some x -> py_get l k = Done x.
Proof.
  intros Hk Hx. unfold py_get.
  replace (k <? 0) with false by lia.
  replace ((0 <=? k) && (k <? len l)) with true
    by (symmetry; apply andb_true_iff; lia).
  by rewrite Hx.
Qed.

Section Buckets.
Context {K V : Type} `{EqDecision K}.
Implicit Types (bucket rest : list (K * V)) (kv : K * V) (key : K) (value : V).

Lemma find_pair_cons_eq kv rest key :
  kv.1 = key -> find_pair (kv :: rest) key = Some (O, kv.2).
Proof. intros Hk. simpl. by rewrite decide_True. Qed.

Lemma find_pair_cons_ne kv rest key :
  kv.1 <> key -> find_pair (kv :: rest) key = prod_map S id <$> find_pair rest key.
Proof. intros Hk. simpl. by rewrite decide_False. Qed.

Lemma find_pair_None bucket key : find_pair bucket key = None <-> key ∉ bucket.*1.
Proof.
  induction bucket as [ | kv rest IH ]; simpl.
  - split; [ intros _; apply not_elem_of_nil | done ].
  - rewrite not_elem_of_cons. destruct (decide (kv.1 = key)) as [Heq | Hne].
    + split; [ done | intros [Hne _]; by destruct Hne ].
    + rewrite fmap_None, IH. split; [ by intros Hk | by intros [_ Hk] ].
Qed.



Lemma bucket_delete_cons_eq kv rest key :
  kv.1 = key -> bucket_delete (kv :: rest) key = rest.
Proof. intros Hk. unfold bucket_delete. by rewrite find_pair_cons_eq. Qed.

Lemma bucket_delete_cons_ne kv rest key :
  kv.1 <> key -> bucket_delete (kv :: rest) key = kv :: bucket_delete rest key.
Proof.
  intros Hk. unfold bucket_delete. rewrite find_pair_cons_ne by done.
  by destruct (find_pair rest key) as [ [i w] | ].
Qed.

Lemma snd_find_pair_cons kv rest key :
  snd <$> find_pair (kv :: rest) key
  = if decide (kv.1 = key) then Some kv.2 else snd <$> find_pair rest key.
Proof.
  simpl. destruct (decide (kv.1 = key)); [ done | ].
  by destruct (find_pair rest key) as [ [i w] | ].
Qed.






(** Reading a bucket after a removal from it: the key is gone when the
    bucket held it once. *)
Lemma get_bucket_delete bucket key key' :
  NoDup bucket.*1 ->
  snd <$> find_pair (bucket_delete bucket key) key'
  = if decide (key = key') then None else snd <$> find_pair bucket key'.
Proof.
  induction bucket as [ | kv rest IH ]; intros Hnd.
  - unfold bucket_delete. simpl. by destruct (decide (key = key')).
  - simpl in Hnd. apply NoDup_cons in Hnd as [Hkv Hnd].
    destruct (decide (kv.1 = key)) as [Heq | Hne].
    + rewrite bucket_delete_cons_eq by done. rewrite snd_find_pair_cons.
      rewrite Heq. destruct (decide (key = key')) as [<- | Hkk]; [ | done ].
      rewrite <- Heq. by rewrite (proj2 (find_pair_None rest kv.1) Hkv).
    + rewrite bucket_delete_cons_ne by done. rewrite !snd_find_pair_cons, IH by done.
      destruct (decide (kv.1 = key')) as [Heq' | Hne']; [ | done ].
      rewrite decide_False; [ done | congruence ].
Qed.

Lemma len_bucket_insert bucket key value :
  len (bucket_insert bucket key value)
  = len bucket + match find_pair bucket key with Some _ => 0 | None => 1 end.
Proof.
  unfold bucket_insert. destruct (find_pair bucket key) as [ [i w] | ].
  - unfold len. rewrite length_alter. lia.
  - rewrite len_app. done.
Qed.

Lemma len_bucket_delete bucket key :
  len (bucket_delete bucket key)
  = len bucket - match find_pair bucket key with Some _ => 1 | None => 0 end.
Proof.
  induction bucket as [ | kv rest IH ]; [ done | ].
  destruct (decide (kv.1 = key)) as [Heq | Hne].
  - rewrite bucket_delete_cons_eq, find_pair_cons_eq by done.
    rewrite len_cons. lia.
  - rewrite bucket_delete_cons_ne, find_pair_cons_ne by done.
    rewrite !len_cons, IH. destruct (find_pair rest key); simpl; lia.
Qed.
End Buckets.

Section HashTableProps.
Context {K V : Type} `{EqDecision K}.
Variable hash : K -> Z.
Implicit Types (ht : hash_table K V) (key : K) (value : V).

Lemma hash_index ht key :
  ht_ok ht -> 0 <= hash key mod ht_size ht < len (ht_table ht).
Proof. intros [Hsize ->]. by apply Z.mod_pos_bound. Qed.

Lemma bucket_at_lookup ht key :
  ht_ok ht ->
  ht_table ht !! Z.to_nat (hash key mod ht_size ht) = Some (bucket_at hash ht key).
Proof.
  intros Hok. pose proof (hash_index ht key Hok) as Hidx. unfold bucket_at.
  destruct (ht_table ht !! _) eqn:E; [ done | ].
  apply lookup_ge_None in E. unfold len in Hidx. lia.
Qed.

Lemma hash_function_ok ht key :
  ht_ok ht -> hash_function hash ht key = Done (hash key mod ht_size ht).
Proof. intros [Hsize _]. unfold hash_function. apply py_mod_Done. lia. Qed.

Lemma ht_get_ok ht key :
  ht_ok ht -> ht_get hash ht key = Done (snd <$> find_pair (bucket_at hash ht key) key).
Proof.
  intros Hok. unfold ht_get. rewrite hash_function_ok by done. simpl.
  rewrite (py_get_lookup _ _ (bucket_at hash ht key))
    by (apply hash_index || apply bucket_at_lookup; done).
  simpl. by destruct (bucket_at hash ht key).
Qed.

Lemma ht_insert_ok ht key value :
  ht_ok ht ->
  ht_insert hash ht key value
  = Done (HashTable (ht_size ht)
            (<[Z.to_nat (hash key mod ht_size ht)
               := bucket_insert (bucket_at hash ht key) key value]> (ht_table ht)),
          true).
Proof.
  intros Hok. pose proof (hash_index ht key Hok) as Hidx.
  unfold ht_insert. rewrite hash_function_ok by done. simpl.
  rewrite (py_get_lookup _ _ (bucket_at hash ht key))
    by (done || by apply bucket_at_lookup).
  simpl. unfold bucket_insert.
  destruct (bucket_at hash ht key) as [ | kv rest ].
  - by rewrite py_set_Done by done.
  - destruct (find_pair (kv :: rest) key) as [ [i w] | ];
      by rewrite py_set_Done by done.
Qed.

Lemma ht_delete_ok ht key :
  ht_ok ht ->
  ht_delete hash ht key
  = Done (HashTable (ht_size ht)
            (<[Z.to_nat (hash key mod ht_size ht)
               := bucket_delete (bucket_at hash ht key) key]> (ht_table ht)),
          bool_decide (is_Some (find_pair (bucket_at hash ht key) key))).
Proof.
  intros Hok. pose proof (hash_index ht key Hok) as Hidx.
  pose proof (bucket_at_lookup ht key Hok) as Hb.
  unfold ht_delete. rewrite hash_function_ok by done. simpl.
  rewrite (py_get_lookup _ _ (bucket_at hash ht key)) by done.
  simpl. unfold bucket_delete.
  destruct (find_pair (bucket_at hash ht key) key) as [ [i w] | ] eqn:Hfind.
  - destruct (bucket_at hash ht key) as [ | kv rest ]; [ done | ].
    by rewrite py_set_Done by done.
  - rewrite list_insert_id by done.
    destruct ht. by destruct (bucket_at _ _ _).
Qed.

Lemma ht_ok_update ht (n : nat) (bucket : list (K * V)) :
  ht_ok ht -> ht_ok (HashTable (ht_size ht) (<[n := bucket]> (ht_table ht))).
Proof. intros [Hsize Hlen]. split; [ done | ]. simpl. by rewrite len_insert. Qed.

Lemma bucket_at_update ht key (bucket : list (K * V)) key' :
  ht_ok ht ->
  bucket_at hash
    (HashTable (ht_size ht)
       (<[Z.to_nat (hash key mod ht_size ht) := bucket]> (ht_table ht))) key'
  = if decide (hash key mod ht_size ht = hash key' mod ht_size ht) then bucket
    else bucket_at hash ht key'.
Proof.
  intros Hok. pose proof (hash_index ht key Hok) as Hidx.
  pose proof (hash_index ht key' Hok) as Hidx'.
  unfold bucket_at. simpl.
  destruct (decide (hash key mod ht_size ht = hash key' mod ht_size ht))
    as [Heq | Hne].
  - rewrite <- Heq. rewrite list_lookup_insert_eq; [ done | unfold len in Hidx; lia ].
  - rewrite list_lookup_insert_ne; [ done | lia ].
Qed.

End HashTableProps.

Section HashTableInvariant.
Context {K V : Type} `{EqDecision K}.
Variable hash : K -> Z.
Implicit Types (ht : hash_table K V) (key : K) (value : V).

Lemma ht_init_ok (size : Z) : 0 < size -> ht_ok (ht_init size : hash_table K V).
Proof.
  intros Hsize. split; [ done | ]. unfold len. simpl.
  rewrite length_fmap, length_seqZ. lia.
Qed.

Lemma ht_init_bucket (size : Z) (n : nat) (bucket : list (K * V)) :
  ht_table (ht_init size) !! n = Some bucket -> bucket = [].
Proof.
  simpl. rewrite list_lookup_fmap.
  destruct (seqZ 0 size !! n); simpl; congruence.
Qed.

Lemma concat_empty_buckets (l : list Z) :
  concat ((fun _ => @nil (K * V)) <$> l) = [].
Proof. induction l as [ | x l IH ]; [ done | simpl; done ]. Qed.


Lemma ht_get_delete_ok ht key key' :
  ht_inv hash ht ->
  ht_get hash
    (HashTable (ht_size ht)
       (<[Z.to_nat (hash key mod ht_size ht)
          := bucket_delete (bucket_at hash ht key) key]> (ht_table ht))) key'
  = if decide (key = key') then Done None else ht_get hash ht key'.
Proof.
  intros [Hok Hall]. rewrite ht_get_ok by by apply ht_ok_update.
  rewrite bucket_at_update by done. rewrite (ht_get_ok hash ht key') by done.
  destruct (Hall _ _ (bucket_at_lookup hash ht key Hok)) as [Hnd _].
  destruct (decide (hash key mod ht_size ht = hash key' mod ht_size ht))
    as [Heq | Hne].
  - rewrite get_bucket_delete by done. unfold bucket_at. rewrite Heq.
    by destruct (decide (key = key')).
  - rewrite decide_False; [ done | congruence ].
Qed.


Lemma len_concat_update (l : list (list (K * V))) (n : nat) (b b' : list (K * V)) :
  l !! n = Some b -> len (concat (<[n := b']> l)) = len (concat l) - len b + len b'.
Proof.
  revert n. induction l as [ | x l IH ]; intros n Hn; [ done | ].
  destruct n as [ | n ]; simpl in *.
  - injection Hn as ->. rewrite !len_app. lia.
  - rewrite !len_app, (IH n Hn). lia.
Qed.
End HashTableInvariant.

(** [HashTable(size)] with a positive size is a table of [size] empty
    buckets: it satisfies the invariant of the class, holds no pair, and
    [get] answers [None] for every key. *)
Theorem ht_init_empty {K V : Type} `{EqDecision K} (hash : K -> Z) (size : Z) :
  0 < size ->
  ht_inv hash (ht_init size : hash_table K V) /\
  ht_count (ht_init size : hash_table K V) = 0 /\
  forall key, ht_get hash (ht_init size : hash_table K V) key = Done None.
Proof.
  intros Hsize. pose proof (ht_init_ok (K := K) (V := V) size Hsize) as Hok.
  split; [ | split ].
  - split; [ done | ]. intros n bucket Hn.
    rewrite (ht_init_bucket size n bucket Hn).
    split; [ apply NoDup_nil_2 | ]. intros kv Hkv. by apply elem_of_nil in Hkv.
  - unfold ht_count. simpl. by rewrite concat_empty_buckets.
  - intros key. rewrite ht_get_ok by done.
    by rewrite (ht_init_bucket size _ _ (bucket_at_lookup hash _ key Hok)).
Qed.

Lemma ht_init_empty_witness :
  0 < 5 /\
  ht_inv (fun k : Z => k) (ht_init 5 : hash_table Z Z) /\
  ht_count (ht_init 5 : hash_table Z Z) = 0 /\
  forall key, ht_get (fun k : Z => k) (ht_init 5 : hash_table Z Z) key = Done None.
Proof.
  assert (0 < 5) as Hsize by lia.
  split; [ exact Hsize | ].
  exact (ht_init_empty (fun k : Z => k) 5 Hsize).
Defined.





(** Reading after removing: on a table that satisfies the invariant,
    [delete] returns [True] exactly when [get] found the key, leaves the
    table as it was when it returns [False], and afterwards [get] gives
    [None] for the removed key and what it gave before for every other
    key. *)
Theorem ht_get_delete {K V : Type} `{EqDecision K} (hash : K -> Z)
    (ht : hash_table K V) (key : K) :
  ht_inv hash ht ->
  exists ht' b,
    ht_delete hash ht key = Done (ht', b) /\
    (b = true <-> exists v, ht_get hash ht key = Done (Some v)) /\
    (b = false -> ht' = ht) /\
    forall key',
      ht_get hash ht' key'
      = if decide (key = key') then Done None else ht_get hash ht key'.
Proof.
  intros Hinv. pose proof Hinv as [Hok _].
  eexists _, _. split; [ by apply ht_delete_ok | ].
  rewrite (ht_get_ok hash ht key) by done.
  split; [ | split ].
  - rewrite bool_decide_eq_true.
    destruct (find_pair (bucket_at hash ht key) key) as [ [i w] | ]; simpl.
    + split; [ by exists w | by eexists ].
    + split; [ by intros [? ?] | by intros [? ?] ].
  - rewrite bool_decide_eq_false. intros Hnone.
    unfold bucket_delete.
    destruct (find_pair (bucket_at hash ht key) key) as [ [i w] | ].
    + destruct Hnone. by eexists.
    + rewrite list_insert_id by by apply bucket_at_lookup. by destruct ht.
  - intros key'. by apply ht_get_delete_ok.
Qed.

Lemma ht_get_delete_witness :
  ht_inv (fun k : Z => k) (HashTable 2 [[(4, 7)]; [(1, 10); (3, 20)]]) /\
  exists ht' b,
    ht_delete (fun k : Z => k) (HashTable 2 [[(4, 7)]; [(1, 10); (3, 20)]]) 3
    = Done (ht', b) /\
    (b = true <->
     exists v, ht_get (fun k : Z => k) (HashTable 2 [[(4, 7)]; [(1, 10); (3, 20)]]) 3
               = Done (Some v)) /\
    (b = false -> ht' = HashTable 2 [[(4, 7)]; [(1, 10); (3, 20)]]) /\
    forall key',
      ht_get (fun k : Z => k) ht' key'
      = if decide (3 = key') then Done None
        else ht_get (fun k : Z => k) (HashTable 2 [[(4, 7)]; [(1, 10); (3, 20)]]) key'.
Proof.
  assert (ht_inv (fun k : Z => k) (HashTable 2 [[(4, 7)]; [(1, 10); (3, 20)]]))
    as Hinv.
  { split; [ split; [ done | reflexivity ] | ].
    intros [ | [ | n ] ] bucket Hn; simpl in Hn; [ | | done ];
      injection Hn as <-; (split; [ by apply (bool_decide_unpack _) | ]);
      intros kv Hkv; repeat (apply elem_of_cons in Hkv as [-> | Hkv]; [ done | ]);
      by apply elem_of_nil in Hkv. }
  split; [ exact Hinv | ].
  exact (ht_get_delete (fun k : Z => k) _ 3 Hinv).
Defined.

(** Without the invariant [delete] does not remove the key: it pops the
    first pair only, and a bucket that holds the key twice (which no
    sequence of [insert] and [delete] on a new table produces) still
    answers afterwards. *)
Example ht_delete_needs_invariant :
  let ht : hash_table Z Z := HashTable 1 [[(3, 10); (3, 20)]] in
  exists ht', ht_delete (fun k : Z => k) ht 3 = Done (ht', true) /\
              ht_get (fun k : Z => k) ht' 3 = Done (Some 20).
Proof. eexists. split; reflexivity. Qed.

(** A table whose size is not positive is unusable: on [HashTable(0)]
    every operation raises ZeroDivisionError in [hash_function], on
    [HashTable(size)] with a negative size the table has no bucket and
    every operation raises IndexError. *)
Theorem ht_bad_size {K V : Type} `{EqDecision K} (hash : K -> Z)
    (size : Z) (key : K) (value : V) :
  size <= 0 ->
  let ht : hash_table K V := ht_init size in
  let e := if decide (size = 0) then ZeroDivisionError else IndexError in
  ht_insert hash ht key value = Raise e /\
  ht_get hash ht key = Raise e /\
  ht_delete hash ht key = Raise e.
Proof.
  intros Hsize. simpl.
  unfold ht_insert, ht_get, ht_delete, hash_function, ht_init. simpl.
  rewrite seqZ_nil by done. simpl.
  destruct (decide (size = 0)) as [-> | Hne]; [ done | ].
  rewrite py_mod_Done by done. simpl.
  rewrite py_get_Raise by (rewrite (@len_nil (list (K * V))); lia). done.
Qed.

Lemma ht_bad_size_witness :
  -3 <= 0 /\
  ht_insert (fun k : Z => k) (ht_init (-3) : hash_table Z Z) 7 1 = Raise IndexError /\
  ht_get (fun k : Z => k) (ht_init (-3) : hash_table Z Z) 7 = Raise IndexError /\
  ht_delete (fun k : Z => k) (ht_init (-3) : hash_table Z Z) 7 = Raise IndexError.
Proof.
  assert (-3 <= 0) as Hsize by lia.
  split; [ exact Hsize | ].
  exact (ht_bad_size (fun k : Z => k) (-3) 7 1 Hsize).
Defined.



(** The number of stored pairs: [insert] adds one pair when [get] did not
    find the key and none when it did (the value is replaced); [delete]
    removes one pair when it returns [True] and none otherwise. *)
Theorem ht_count_changes {K V : Type} `{EqDecision K} (hash : K -> Z)
    (ht : hash_table K V) (key : K) (value : V) :
  ht_ok ht ->
  (exists ht', ht_insert hash ht key value = Done (ht', true) /\
     ht_count ht'
     = ht_count ht + match ht_get hash ht key with Done None => 1 | _ => 0 end) /\
  (exists ht' b, ht_delete hash ht key = Done (ht', b) /\
     ht_count ht' = ht_count ht - if b then 1 else 0).
Proof.
  intros Hok. pose proof (bucket_at_lookup hash ht key Hok) as Hb. split.
  - eexists. split; [ by apply ht_insert_ok | ].
    unfold ht_count. simpl. rewrite (len_concat_update _ _ _ _ Hb).
    rewrite len_bucket_insert, (ht_get_ok hash ht key) by done.
    destruct (find_pair (bucket_at hash ht key) key) as [ [i w] | ]; simpl; lia.
  - eexists _, _. split; [ by apply ht_delete_ok | ].
    unfold ht_count. simpl. rewrite (len_concat_update _ _ _ _ Hb).
    rewrite len_bucket_delete.
    destruct (find_pair (bucket_at hash ht key) key) as [ [i w] | ]; simpl; lia.
Qed.

Lemma ht_count_changes_witness :
  ht_ok (HashTable 2 [[(4, 7)]; [(1, 10); (3, 20)]] : hash_table Z Z) /\
  exists ht',
    ht_insert (fun k : Z => k) (HashTable 2 [[(4, 7)]; [(1, 10); (3, 20)]]) 5 1
    = Done (ht', true) /\
    ht_count ht'
    = ht_count (HashTable 2 [[(4, 7)]; [(1, 10); (3, 20)]] : hash_table Z Z)
      + match ht_get (fun k : Z => k)
                (HashTable 2 [[(4, 7)]; [(1, 10); (3, 20)]]) 5 with
        | Done None => 1
        | _ => 0
        end.
Proof.
  assert (ht_ok (HashTable 2 [[(4, 7)]; [(1, 10); (3, 20)]] : hash_table Z Z)) as Hok
    by (split; [ done | reflexivity ]).
  split; [ exact Hok | ].
  exact (proj1 (ht_count_changes (fun k : Z => k) _ 5 1 Hok)).
Defined.
